(** * jogger: request-scoped, span-based structured logging

    A shallow embedding of [jogger.go] (package [jogger]) and the
    properties of its context propagation and span lifecycle.

    Layout of the development:
    - [Zap]      the part of [go.uber.org/zap] the package calls: levels,
                 fields, loggers and the records a logger writes;
    - [Ctx]      [context.Context] as the immutable chain it is;
    - [Slices]   Go slices over a store of backing arrays ([make], [copy],
                 [append]);
    - [Jogger]   the package itself: [WithRequestID], [FromContext],
                 [StartSpan], [SetTag], [Finish] and the logging facade,
                 followed by the interleaving semantics of concurrent
                 callers of one span. *)

From Stdlib Require Import ZArith Permutation.
From stdpp Require Import base option list strings pretty gmap fin_maps.

Local Open Scope string_scope.
Local Open Scope list_scope.
Local Open Scope Z_scope.

(** ** Outcomes of an operation that can block or crash *)

Inductive outcome (A : Type) : Type :=
| Ok (a : A)
| Blocked   (* waits for ever: [Lock] on a mutex that is held *)
| Fatal.    (* the runtime aborts: [Unlock] of a mutex that is not held *)
Arguments Ok {A} a.
Arguments Blocked {A}.
Arguments Fatal {A}.

Definition obind {A B} (m : outcome A) (k : A -> outcome B) : outcome B :=
  match m with
  | Ok a => k a
  | Blocked => Blocked
  | Fatal => Fatal
  end.

(** ** The zap API used by the package *)

Module Zap.

(** [zapcore.Level] is an [int8]; the constants keep their values. *)
Inductive Level := DebugLevel | InfoLevel | WarnLevel | ErrorLevel
                 | DPanicLevel | PanicLevel | FatalLevel.

Definition level_num (l : Level) : Z :=
  match l with
  | DebugLevel => -1
  | InfoLevel => 0
  | WarnLevel => 1
  | ErrorLevel => 2
  | DPanicLevel => 3
  | PanicLevel => 4
  | FatalLevel => 5
  end.

(** A Go [error] value: [None] is the nil error, [Some msg] an error whose
    [Error()] text is [msg]. *)
Definition GoError := option string.

(** Dynamic values handed to [zap.Any] ([interface{}]). *)
Inductive GoValue :=
| GNil
| GString (s : string)
| GInt (n : Z)
| GBool (b : bool)
| GDuration (d : Z)
| GErr (msg : string)
| GOpaque (id : nat).

(** [zap.Field]. [FZero] is the zero value of the struct (what [make]
    fills a fresh array with), [FSkip] the no-op field of [zap.Skip]. *)
Inductive Field :=
| FZero
| FSkip
| FString (key val : string)
| FInt (key : string) (val : Z)
| FBool (key : string) (val : bool)
| FDuration (key : string) (val : Z)
| FError (key : string) (msg : string)
| FReflect (key : string) (val : GoValue).

Definition field_key (f : Field) : option string :=
  match f with
  | FZero | FSkip => None
  | FString k _ | FInt k _ | FBool k _ | FDuration k _
  | FError k _ | FReflect k _ => Some k
  end.

Definition zap_String (key val : string) : Field := FString key val.
Definition zap_Duration (key : string) (val : Z) : Field := FDuration key val.

(** [zap.NamedError] and [zap.Error]: a nil error gives [zap.Skip()]. *)
Definition zap_NamedError (key : string) (err : GoError) : Field :=
  match err with
  | None => FSkip
  | Some msg => FError key msg
  end.
Definition zap_Error (err : GoError) : Field := zap_NamedError "error" err.

(** [zap.Any] chooses the field constructor by the dynamic type. *)
Definition zap_Any (key : string) (value : GoValue) : Field :=
  match value with
  | GString s => zap_String key s
  | GInt n => FInt key n
  | GBool b => FBool key b
  | GDuration d => zap_Duration key d
  | GErr msg => zap_NamedError key (Some msg)
  | GNil | GOpaque _ => FReflect key value
  end.

(** A core as [zapcore.NewCore] builds it: where records go and the least
    level it lets through. *)
Record Core := { core_sink : string; core_level : Level }.

(** A [*zap.Logger]: its core and the fields accumulated by [With]. *)
Record Logger := { lcore : Core; lcontext : list Field }.

Definition With (l : Logger) (fs : list Field) : Logger :=
  {| lcore := lcore l; lcontext := lcontext l ++ fs |}.

(** What a logger writes: one [Entry] per enabled call. *)
Record Entry := {
  entry_logger : Logger;
  entry_level : Level;
  entry_msg : string;
  entry_fields : list Field
}.

Definition Enabled (c : Core) (lvl : Level) : bool :=
  level_num (core_level c) <=? level_num lvl.

(** [Logger.Info], [Logger.Warn], [Logger.Error]: check the level, then
    write the message and the call's fields. *)
Definition log (l : Logger) (lvl : Level) (msg : string) (fs : list Field)
  : list Entry :=
  if Enabled (lcore l) lvl
  then [ {| entry_logger := l; entry_level := lvl;
            entry_msg := msg; entry_fields := fs |} ]
  else [].

End Zap.
Import Zap.

(** ** context.Context *)

Module Ctx.

(** Context keys are [interface{}] values compared with [==]: a
    [ContextKey] and a plain [string] with the same text are different
    keys. *)
Inductive Key :=
| ContextKey (s : string)
| StringKey (s : string).

#[export] Instance Key_eq_dec : EqDecision Key.
Proof. solve_decision. Defined.

(** Values bound in a context: a (non-nil) [*zap.Logger] or any other
    value. *)
Inductive CtxValue :=
| CLogger (l : Logger)
| CVal (v : GoValue).

(** The chain of carriers. [WithCancel] stands for the nodes that bind no
    key (cancellation, deadlines): lookups pass through them. *)
Inductive Context :=
| Background
| WithCancel (parent : Context)
| WithValue (parent : Context) (key : Key) (val : CtxValue).

(** [ctx.Value(key)]: the nearest binding of [key], walking to the root. *)
Fixpoint Value (ctx : Context) (key : Key) : option CtxValue :=
  match ctx with
  | Background => None
  | WithCancel parent => Value parent key
  | WithValue parent k v => if decide (k = key) then Some v else Value parent key
  end.

Definition parent_of (ctx : Context) : option Context :=
  match ctx with
  | Background => None
  | WithCancel p | WithValue p _ _ => Some p
  end.

(** The ancestors of a carrier, nearest first (the carrier itself
    excluded). *)
Fixpoint ancestors (ctx : Context) : list Context :=
  match ctx with
  | Background => []
  | WithCancel p | WithValue p _ _ => p :: ancestors p
  end.

(** The type assertions of a looked-up value to [string] and to
    [*zap.Logger]; [None] is [ok == false]. *)
Definition as_string (v : option CtxValue) : option string :=
  match v with
  | Some (CVal (GString s)) => Some s
  | _ => None
  end.

Definition as_logger (v : option CtxValue) : option Logger :=
  match v with
  | Some (CLogger l) => Some l
  | _ => None
  end.

End Ctx.
Import Ctx.

(** ** Go slices over a store of backing arrays *)

Module Slices.

Local Open Scope nat_scope.

(** The store maps the address of a backing array to its cells; the
    length of the stored list is the capacity of the array. *)
Abbreviation Heap := (gmap nat (list Field)).

(** A slice header. The nil slice has no array and length and capacity 0. *)
Record Slice := { ptr : option nat; len : nat; cap : nat }.

Definition nil_slice : Slice := {| ptr := None; len := 0; cap := 0 |}.

Definition backing (h : Heap) (sl : Slice) : list Field :=
  match ptr sl with
  | Some p => default [] (h !! p)
  | None => []
  end.

(** The elements a slice denotes: the first [len] cells of its array. *)
Definition contents (h : Heap) (sl : Slice) : list Field :=
  take (len sl) (backing h sl).

(** A header is well formed in a store when its array is allocated with
    exactly [cap] cells and [len <= cap]. *)
Definition slice_ok (h : Heap) (sl : Slice) : bool :=
  (len sl <=? cap sl) &&
  match ptr sl with
  | Some p => match h !! p with
              | Some arr => length arr =? cap sl
              | None => false
              end
  | None => cap sl =? 0
  end.

Definition alloc (h : Heap) (arr : list Field) : Heap * nat :=
  let p := fresh (dom h) in (<[p := arr]> h, p).

(** [make([]zap.Field, n)]: a new array of [n] zero fields. *)
Definition make_slice (h : Heap) (n : nat) : Heap * Slice :=
  let '(h', p) := alloc h (replicate n FZero) in
  (h', {| ptr := Some p; len := n; cap := n |}).

(** [copy(dst, src)]: overwrite the first [min(len(dst), len(src))] cells
    of [dst]'s array. *)
Definition copy_slice (h : Heap) (dst src : Slice) : Heap :=
  match ptr dst with
  | Some p =>
      let n := min (len dst) (len src) in
      <[p := take n (contents h src) ++ drop n (backing h dst)]> h
  | None => h
  end.

(** [append(sl, x)]: write in place when the array has a spare cell,
    otherwise move the elements to a new, larger array. The runtime's
    growth policy is the parameter [growcap old needed]; the new capacity
    is never less than what is needed. *)
Definition append_slice (growcap : nat -> nat -> nat)
    (h : Heap) (sl : Slice) (x : Field) : Heap * Slice :=
  let grown :=
    let newcap := max (S (len sl)) (growcap (cap sl) (S (len sl))) in
    let '(h', p) :=
      alloc h (contents h sl ++ x :: replicate (newcap - S (len sl)) FZero) in
    (h', {| ptr := Some p; len := S (len sl); cap := newcap |}) in
  match ptr sl with
  | Some p =>
      if len sl <? cap sl
      then (<[p := <[len sl := x]> (backing h sl)]> h,
            {| ptr := Some p; len := S (len sl); cap := cap sl |})
      else grown
  | None => grown
  end.

End Slices.
Import Slices.

(** ** Package jogger *)

(** [time.Duration] is an [int64] count of nanoseconds; [Time.Sub] (and so
    [time.Since]) saturates at its bounds. Instants are nanosecond readings
    of the clock. *)
Definition minDuration : Z := - 2 ^ 63.
Definition maxDuration : Z := 2 ^ 63 - 1.
Definition Second : Z := 1000000000.

Definition time_Sub (t u : Z) : Z :=
  Z.max minDuration (Z.min maxDuration (t - u)).

(** [time.Since(start)] when the clock reads [now]. *)
Definition time_Since (now start : Z) : Z := time_Sub now start.

(** What the environment hands to one call of [StartSpan]: the text of
    [uuid.New().String()] and the reading of [time.Now()]. *)
Record Env := { uuid_New : string; time_Now : Z }.

Definition RequestIDKey : Key := ContextKey "requestID".
Definition SpanKey : Key := ContextKey "currentSpan".
Definition LoggerKey : Key := ContextKey "currentLogger".

(** The logger built by [init]: console encoder on standard output, at
    [InfoLevel]. *)
Definition baseLogger : Logger :=
  {| lcore := {| core_sink := "stdout"; core_level := InfoLevel |};
     lcontext := [] |}.

Record Span := {
  logger : Logger;
  start : Z;
  fields : Slice;
  mu : bool          (* the mutex: [true] while held *)
}.

Definition WithRequestID (ctx : Context) (requestID : string) : Context :=
  WithValue ctx RequestIDKey (CVal (GString requestID)).

Definition FromContext (ctx : Context) : Logger :=
  let fields : list Field := [] in
  let fields :=
    match as_string (Value ctx RequestIDKey) with
    | Some rid => fields ++ [zap_String "requestID" rid]
    | None => fields
    end in
  let fields :=
    match as_string (Value ctx SpanKey) with
    | Some span => fields ++ [zap_String "span" span]
    | None => fields
    end in
  match as_logger (Value ctx LoggerKey) with
  | Some l => With l fields
  | None => With baseLogger fields
  end.

Definition StartSpan (env : Env) (ctx : Context) (name : string)
  : Span * Context :=
  (* a failed assertion leaves the zero value, the empty string *)
  let requestID := default "" (as_string (Value ctx RequestIDKey)) in
  let spanID := uuid_New env in
  let fields := [zap_String "span" name; zap_String "spanID" spanID] in
  let fields :=
    if decide (requestID = "") then fields
    else fields ++ [zap_String "requestID" requestID] in
  let l := With baseLogger fields in
  let ctx := WithValue ctx SpanKey (CVal (GString spanID)) in
  ({| logger := l; start := time_Now env; fields := nil_slice; mu := false |},
   ctx).

(** The logging facade: resolve the logger, write one record. *)
Definition Info (ctx : Context) (msg : string) (fs : list Field) : list Entry :=
  log (FromContext ctx) InfoLevel msg fs.
Definition Warn (ctx : Context) (msg : string) (fs : list Field) : list Entry :=
  log (FromContext ctx) WarnLevel msg fs.
Definition Error (ctx : Context) (msg : string) (fs : list Field) : list Entry :=
  log (FromContext ctx) ErrorLevel msg fs.

(** A field with the given key is among [fs]. *)
Definition has_key (key : string) (fs : list Field) : bool :=
  existsb (fun f => bool_decide (field_key f = Some key)) fs.

(** [id] is bound as [currentSpan] nowhere among the ancestors of [ctx]. *)
Definition distinct_from_ancestors (id : string) (ctx : Context) : Prop :=
  Forall (fun a => as_string (Value a SpanKey) <> Some id) (ancestors ctx).

(** The identifier generator. [gen i] is the text of the [i]-th
    [uuid.New().String()] of the process; what makes the identifiers
    unique is that no two draws give the same text. [spans_issued gen n ctx]:
    every [currentSpan] bound along the chain of [ctx] is one of the first
    [n] identifiers drawn, as it is when the binding was made by
    [StartSpan], or a text the generator never gives, such as one a caller
    wrote that is no UUID. *)
Definition spans_issued (gen : nat -> string) (n : nat) (ctx : Context) : Prop :=
  Forall (fun a => forall id, as_string (Value a SpanKey) = Some id ->
                              (exists i, (i < n)%nat /\ id = gen i) \/
                              (forall j, id <> gen j))
         (ctx :: ancestors ctx).

(** *** Spans: [SetTag] and [Finish]

    Both methods take the span by pointer and run against the store of
    backing arrays and the records written so far. Each is given as the
    sequence of its atomic actions, so that the same text serves a caller
    running alone ([run]) and callers interleaved on one span ([step]). *)

Record State := {
  span : Span;               (* the span the methods are called on *)
  heap : Heap;               (* backing arrays *)
  out : list Entry           (* records written, oldest first *)
}.

(** The local variables of a call: the slice header read from [s.fields],
    and [fieldsCopy]. *)
Record Local := { loaded : Slice; fieldsCopy : Slice }.

Definition local0 : Local := {| loaded := nil_slice; fieldsCopy := nil_slice |}.

Definition set_mu (b : bool) (s : Span) : Span :=
  {| logger := logger s; start := start s; fields := fields s; mu := b |}.

Definition set_fields (sl : Slice) (s : Span) : Span :=
  {| logger := logger s; start := start s; fields := sl; mu := mu s |}.

Inductive action :=
| ALock                                   (* s.mu.Lock() *)
| AUnlock                                 (* s.mu.Unlock() *)
| ALoad                                   (* read s.fields *)
| AStore (f : Field)                      (* s.fields = append(<read>, f) *)
| AMake                                   (* fieldsCopy := make([]zap.Field, len(s.fields)) *)
| ACopy                                   (* copy(fieldsCopy, s.fields) *)
| AEmit (now : Z) (err : option GoError). (* the rest of Finish, outside the lock *)

Definition SetTag_body (key : string) (value : GoValue) : list action :=
  [ALock; ALoad; AStore (zap_Any key value); AUnlock].

Definition Finish_body (now : Z) (err : option GoError) : list action :=
  [ALock; AMake; ACopy; AUnlock; AEmit now err].

(** A goroutine: the actions it has left and its local variables. *)
Record Thread := { code : list action; regs : Local }.

Definition spawn (prog : list action) : Thread :=
  {| code := prog; regs := local0 |}.

(** The next action of the thread is inside a critical section: the first
    mutex operation it has left is an [Unlock]. *)
Fixpoint holds_lock (prog : list action) : bool :=
  match prog with
  | [] => false
  | ALock :: _ => false
  | AUnlock :: _ => true
  | _ :: rest => holds_lock rest
  end.

Definition touches_tags (a : action) : bool :=
  match a with
  | ALoad | AStore _ | AMake | ACopy => true
  | _ => false
  end.

(** *** A running example

    A span started for request [r1], a growth policy that doubles the
    capacity, and two callers with two and one tags. *)

Definition example_growcap (oldcap needed : nat) : nat := (2 * oldcap)%nat.

Definition example_env : Env :=
  {| uuid_New := "7a888a3d-a94b-4a0c-b6f6-021a398b7de1"; time_Now := 100 |}.

Definition example_ctx : Context := WithRequestID Background "r1".

Definition example_state : State :=
  {| span := fst (StartSpan example_env example_ctx "op");
     heap := ∅;
     out := [] |}.

Definition example_tags : list (list (string * GoValue)) :=
  [ [("k", GString "v"); ("n", GInt 3)]; [("ok", GBool true)] ].

(** The two callers interleaved: the second takes the mutex between the
    two calls of the first. *)
Definition example_order : list nat :=
  [0; 0; 0; 0; 1; 1; 1; 1; 0; 0; 0; 0]%nat.

(** [Finish] (thread 0) racing with the two callers (threads 1 and 2): it
    takes its snapshot after the first tag and writes the record after the
    second. *)
Definition example_race_order : list nat :=
  [1; 1; 1; 1; 0; 0; 0; 0; 2; 2; 2; 2; 0; 1; 1; 1; 1]%nat.

(** A carrier whose logger is overridden. *)
Definition example_override : Logger :=
  {| lcore := {| core_sink := "test"; core_level := DebugLevel |};
     lcontext := [FString "service" "api"] |}.

Definition example_ctx_override : Context :=
  WithValue example_ctx LoggerKey (CLogger example_override).

(** A generator for the examples: the decimal text of the draw's index,
    different for different draws. *)
Definition example_uuids (i : nat) : string := pretty i.

(** The carrier of a span started with the first draw, inside a request. *)
Definition example_ctx_span : Context :=
  snd (StartSpan {| uuid_New := example_uuids 0; time_Now := 100 |}
         example_ctx "outer").

Section Jogger.

(** The growth policy of [append] in the Go runtime. *)
Variable growcap : nat -> nat -> nat.

(** Lines 99 to 109 of [Finish]: [err] is the pointer argument, [None]
    for nil, [Some e] for a pointer to the error value [e]. *)
Definition emit (now : Z) (err : option GoError) (l : Local) (st : State)
  : Local * State :=
  let s := span st in
  let elapsed := time_Since now (start s) in
  let '(h1, c1) :=
    append_slice growcap (heap st) (fieldsCopy l)
      (zap_Duration "duration" elapsed) in
  match err with
  | Some (Some msg) =>
      let '(h2, c2) := append_slice growcap h1 c1 (zap_Error (Some msg)) in
      ({| loaded := loaded l; fieldsCopy := c2 |},
       {| span := s; heap := h2;
          out := out st ++ log (logger s) ErrorLevel
                   "span finished with error" (contents h2 c2) |})
  | _ =>
      if Second <? elapsed
      then ({| loaded := loaded l; fieldsCopy := c1 |},
            {| span := s; heap := h1;
               out := out st ++ log (logger s) WarnLevel
                        "span finished slowly" (contents h1 c1) |})
      else ({| loaded := loaded l; fieldsCopy := c1 |},
            {| span := s; heap := h1;
               out := out st ++ log (logger s) InfoLevel
                        "span finished successfully" (contents h1 c1) |})
  end.

(** One atomic action of a call. *)
Definition exec (a : action) (l : Local) (st : State)
  : outcome (Local * State) :=
  let s := span st in
  match a with
  | ALock =>
      if mu s then Blocked
      else Ok (l, {| span := set_mu true s; heap := heap st; out := out st |})
  | AUnlock =>
      if mu s
      then Ok (l, {| span := set_mu false s; heap := heap st; out := out st |})
      else Fatal
  | ALoad =>
      Ok ({| loaded := fields s; fieldsCopy := fieldsCopy l |}, st)
  | AStore f =>
      let '(h', sl') := append_slice growcap (heap st) (loaded l) f in
      Ok (l, {| span := set_fields sl' s; heap := h'; out := out st |})
  | AMake =>
      let '(h', c) := make_slice (heap st) (len (fields s)) in
      Ok ({| loaded := loaded l; fieldsCopy := c |},
          {| span := s; heap := h'; out := out st |})
  | ACopy =>
      Ok (l, {| span := s;
                heap := copy_slice (heap st) (fieldsCopy l) (fields s);
                out := out st |})
  | AEmit now err => Ok (emit now err l st)
  end.

(** A call running alone: its actions in order. *)
Fixpoint run (prog : list action) (l : Local) (st : State)
  : outcome (Local * State) :=
  match prog with
  | [] => Ok (l, st)
  | a :: rest => obind (exec a l st) (fun r => run rest (fst r) (snd r))
  end.

Definition call (prog : list action) (st : State) : outcome State :=
  obind (run prog local0 st) (fun r => Ok (snd r)).

Definition SetTag (key : string) (value : GoValue) (st : State)
  : outcome State :=
  call (SetTag_body key value) st.

Definition Finish (now : Z) (err : option GoError) (st : State)
  : outcome State :=
  call (Finish_body now err) st.

(** A sequence of [SetTag] calls made one after the other. *)
Fixpoint SetTags (tags : list (string * GoValue)) (st : State)
  : outcome State :=
  match tags with
  | [] => Ok st
  | (k, v) :: rest => obind (SetTag k v st) (SetTags rest)
  end.

(** Goroutines sharing the span: any thread whose next action is not
    blocked may take it. *)
Inductive step : list Thread * State -> list Thread * State -> Prop :=
| step_thread before t after a rest l' st st' :
    code t = a :: rest ->
    exec a (regs t) st = Ok (l', st') ->
    step (before ++ t :: after, st)
         (before ++ {| code := rest; regs := l' |} :: after, st').

Inductive steps : list Thread * State -> list Thread * State -> Prop :=
| steps_refl c : steps c c
| steps_step c1 c2 c3 : steps c1 c2 -> step c2 c3 -> steps c1 c3.

(** The scheduler lets thread [i] take its next action. *)
Definition fire (i : nat) (c : list Thread * State)
  : option (list Thread * State) :=
  match fst c !! i with
  | Some t =>
      match code t with
      | a :: rest =>
          match exec a (regs t) (snd c) with
          | Ok (l', st') =>
              Some (take i (fst c) ++ {| code := rest; regs := l' |}
                      :: drop (S i) (fst c), st')
          | _ => None
          end
      | [] => None
      end
  | None => None
  end.

Fixpoint schedule (order : list nat) (c : list Thread * State)
  : option (list Thread * State) :=
  match order with
  | [] => Some c
  | i :: rest =>
      match fire i c with
      | Some c' => schedule rest c'
      | None => None
      end
  end.

Definition finished (ts : list Thread) : Prop :=
  Forall (fun t => code t = []) ts.

(** The program of a caller that makes the given [SetTag] calls in turn. *)
Fixpoint SetTags_prog (tags : list (string * GoValue)) : list action :=
  match tags with
  | [] => []
  | (k, v) :: rest => SetTag_body k v ++ SetTags_prog rest
  end.

Definition tag_fields (tags : list (string * GoValue)) : list Field :=
  map (fun kv => zap_Any (fst kv) (snd kv)) tags.

(** The fields a program has yet to append. *)
Fixpoint stores (prog : list action) : list Field :=
  match prog with
  | [] => []
  | AStore f :: rest => f :: stores rest
  | _ :: rest => stores rest
  end.

(** The number of actions the threads have left. *)
Fixpoint remaining (ts : list Thread) : nat :=
  match ts with
  | [] => 0%nat
  | t :: rest => (length (code t) + remaining rest)%nat
  end.

(** How many of the threads are inside a critical section. *)
Fixpoint holders (ts : list Thread) : nat :=
  match ts with
  | [] => 0%nat
  | t :: rest => ((if holds_lock (code t) then 1 else 0) + holders rest)%nat
  end.

(** The fields [Finish] adds to the snapshot, with the level and the
    message of the record. *)
Definition verdict (err : option GoError) (elapsed : Z)
  : Level * string * list Field :=
  match err with
  | Some (Some msg) =>
      (ErrorLevel, "span finished with error",
       [FDuration "duration" elapsed; FError "error" msg])
  | _ =>
      if Second <? elapsed
      then (WarnLevel, "span finished slowly", [FDuration "duration" elapsed])
      else (InfoLevel, "span finished successfully",
            [FDuration "duration" elapsed])
  end.

(** The span as a caller may hold it between calls: the mutex is free,
    the tag slice is well formed, and the logger lets [InfoLevel]
    through (as every logger derived from [baseLogger] does). *)
Definition span_ok (st : State) : bool :=
  negb (mu (span st))
  && slice_ok (heap st) (fields (span st))
  && Enabled (lcore (logger (span st))) InfoLevel.

(** The tag sequence of the span. *)
Definition tags_of (st : State) : list Field :=
  contents (heap st) (fields (span st)).

(** The record a call of [Finish] writes for the state it is called in. *)
Definition record_of (now : Z) (err : option GoError) (st : State) : Entry :=
  let v := verdict err (time_Since now (start (span st))) in
  {| entry_logger := logger (span st);
     entry_level := fst (fst v);
     entry_msg := snd (fst v);
     entry_fields := tags_of st ++ snd v |}.

(** The callers as they start: each at the head of its program. *)
Definition callers (tss : list (list (string * GoValue))) : list Thread :=
  map (fun tags => spawn (SetTags_prog tags)) tss.

(** Every field the span has or will be given. *)
Definition all_tags (st0 : State) (tss : list (list (string * GoValue)))
  : list Field :=
  tags_of st0 ++ concat (map tag_fields tss).

(** *** Invariants of the interleaved executions *)

(** Where a caller of [SetTag] can be in its program. *)
Inductive tagger_code : list action -> Prop :=
| tc_idle rest :
    tagger_code (SetTags_prog rest)
| tc_locked key value rest :
    tagger_code (ALoad :: AStore (zap_Any key value) :: AUnlock
                   :: SetTags_prog rest)
| tc_loaded key value rest :
    tagger_code (AStore (zap_Any key value) :: AUnlock :: SetTags_prog rest)
| tc_stored rest :
    tagger_code (AUnlock :: SetTags_prog rest).

(** A caller about to store has read the current header. *)
Definition tagger_inv (st : State) (t : Thread) : Prop :=
  tagger_code (code t) /\
  (forall f r, code t = AStore f :: r -> loaded (regs t) = fields (span st)).

(** The callers of [SetTag], with [e] the number of other threads inside
    a critical section: the mutex is held exactly when some thread is
    inside, the tag slice is well formed, and the tags appended so far
    together with those still to be appended are the [total]. *)
Definition taggers_inv (total : list Field) (e : nat)
    (ts : list Thread) (st : State) : Prop :=
  (holders ts + e)%nat = (if mu (span st) then 1 else 0)%nat /\
  slice_ok (heap st) (fields (span st)) = true /\
  Forall (tagger_inv st) ts /\
  Permutation (tags_of st ++ concat (map (fun t => stores (code t)) ts)) total.

(** A slice that lives in an array of its own, apart from the span's. *)
Definition snapshot_ok (st : State) (c : Slice) : Prop :=
  slice_ok (heap st) c = true /\
  exists p, ptr c = Some p /\ ptr (fields (span st)) <> Some p.

(** The caller of [Finish], [k] actions into its program. *)
Definition finisher_inv (now : Z) (err : option GoError)
    (st0 st : State) (t : Thread) : Prop :=
  exists k,
    code t = drop k (Finish_body now err) /\
    let c := fieldsCopy (regs t) in
    match k with
    | 0%nat | 1%nat => out st = out st0
    | 2%nat =>
        out st = out st0 /\ snapshot_ok st c /\
        len c = len (fields (span st)) /\ cap c = len c
    | 3%nat | 4%nat =>
        out st = out st0 /\ snapshot_ok st c /\
        exists later, tags_of st = contents (heap st) c ++ later
    | _ =>
        exists snap later,
          tags_of st = snap ++ later /\
          out st = out st0 ++
            [ {| entry_logger := logger (span st0);
                 entry_level :=
                   fst (fst (verdict err (time_Since now (start (span st0)))));
                 entry_msg :=
                   snd (fst (verdict err (time_Since now (start (span st0)))));
                 entry_fields :=
                   snap ++ snd (verdict err (time_Since now (start (span st0))))
              |} ]
    end.

(** [Finish] racing with the callers of [SetTag]. *)
Definition race_inv (now : Z) (err : option GoError) (total : list Field)
    (st0 : State) (c : list Thread * State) : Prop :=
  match fst c with
  | fin :: taggers =>
      taggers_inv total (if holds_lock (code fin) then 1 else 0)
        taggers (snd c) /\
      finisher_inv now err st0 (snd c) fin /\
      logger (span (snd c)) = logger (span st0) /\
      start (span (snd c)) = start (span st0)
  | [] => False
  end.

(** *** The store: allocation, [make], [copy], [append] *)

Lemma alloc_fresh (h : Heap) (arr : list Field) :
  h !! snd (alloc h arr) = None.
Proof.
  unfold alloc; simpl. apply not_elem_of_dom, is_fresh.
Qed.

Lemma slice_ok_inv (h : Heap) (sl : Slice) :
  slice_ok h sl = true ->
  (len sl <= cap sl)%nat /\ length (backing h sl) = cap sl /\
  (forall p, ptr sl = Some p -> exists arr, h !! p = Some arr).
Proof.
  unfold slice_ok, backing. intros H.
  apply andb_true_iff in H as [Hle H]. apply Nat.leb_le in Hle.
  destruct (ptr sl) as [p|].
  - destruct (h !! p) as [arr|] eqn:Hp; [|discriminate].
    apply Nat.eqb_eq in H. simpl. split; [done|]. split; [done|].
    intros q [= <-]. eauto.
  - apply Nat.eqb_eq in H. simpl. split; [done|]. split; [done|].
    intros q [=].
Qed.

Lemma contents_length (h : Heap) (sl : Slice) :
  slice_ok h sl = true -> length (contents h sl) = len sl.
Proof.
  intros H. apply slice_ok_inv in H as (Hle & Hlen & _).
  unfold contents. rewrite length_take. lia.
Qed.

Lemma take_S_insert (l : list Field) (n : nat) (x : Field) :
  (n < length l)%nat -> take (S n) (<[n := x]> l) = take n l ++ [x].
Proof.
  intros Hn.
  rewrite (take_S_r _ _ x) by (by apply list_lookup_insert_eq).
  by rewrite take_insert_ge.
Qed.

(** [append] adds the element at the end, keeps the header well formed
    and writes to no array but the slice's own (or a new one). *)
Lemma append_slice_spec (h h' : Heap) (sl sl' : Slice) (x : Field) :
  slice_ok h sl = true ->
  append_slice growcap h sl x = (h', sl') ->
  contents h' sl' = contents h sl ++ [x] /\
  slice_ok h' sl' = true /\
  len sl' = S (len sl) /\
  (forall q arr, ptr sl <> Some q -> h !! q = Some arr -> h' !! q = Some arr) /\
  (exists p', ptr sl' = Some p' /\ (ptr sl = Some p' \/ h !! p' = None)).
Proof.
  intros Hok Happ.
  pose proof (contents_length _ _ Hok) as Hclen.
  pose proof (slice_ok_inv _ _ Hok) as (Hle & Hlen & Hptr).
  assert (Hgrown : forall newcap p,
    newcap = Nat.max (S (len sl)) (growcap (cap sl) (S (len sl))) ->
    p = fresh (dom h) ->
    h' = <[p := contents h sl ++ x :: replicate (newcap - S (len sl)) FZero]> h ->
    sl' = {| ptr := Some p; len := S (len sl); cap := newcap |} ->
    contents h' sl' = contents h sl ++ [x] /\
    slice_ok h' sl' = true /\
    len sl' = S (len sl) /\
    (forall q arr, ptr sl <> Some q -> h !! q = Some arr -> h' !! q = Some arr) /\
    (exists p', ptr sl' = Some p' /\ (ptr sl = Some p' \/ h !! p' = None))).
  { intros newcap p Hcap Hp -> ->.
    assert (Hfresh : h !! p = None)
      by (subst p; apply not_elem_of_dom, is_fresh).
    unfold contents at 1, backing, slice_ok; cbn [ptr len cap].
    rewrite lookup_insert_eq; cbn [default from_option id].
    split.
    { rewrite (cons_middle x), app_assoc, take_app_length'; [done|].
      rewrite length_app, Hclen; simpl; lia. }
    split.
    { apply andb_true_iff; split; [apply Nat.leb_le; lia|].
      apply Nat.eqb_eq. rewrite length_app, Hclen; simpl.
      rewrite length_replicate. lia. }
    split; [done|]. split.
    { intros q arr _ Hq. rewrite lookup_insert_ne; [done|]. congruence. }
    exists p. auto. }
  unfold append_slice, alloc in Happ.
  destruct (ptr sl) as [p|] eqn:Eptr.
  - destruct (len sl <? cap sl)%nat eqn:Elt.
    + apply Nat.ltb_lt in Elt. injection Happ as <- <-.
      destruct (Hptr p eq_refl) as [arr Harr].
      assert (Hb : backing h sl = arr) by (unfold backing; by rewrite Eptr, Harr).
      rewrite Hb in *.
      unfold contents at 1, backing, slice_ok; cbn [ptr len cap].
      rewrite lookup_insert_eq; cbn [default from_option id].
      split. { unfold contents. rewrite Hb. apply take_S_insert. lia. }
      split. { apply andb_true_iff; split; [apply Nat.leb_le; lia|].
               apply Nat.eqb_eq. by rewrite length_insert. }
      split; [done|]. split.
      { intros q arr' Hne Hq. rewrite lookup_insert_ne; [done|]. congruence. }
      exists p. auto.
    + injection Happ as <- <-. by eapply Hgrown.
  - injection Happ as <- <-. by eapply Hgrown.
Qed.

Lemma backing_insert_ne (h : Heap) (sl : Slice) (p : nat) (arr : list Field) :
  ptr sl <> Some p -> backing (<[p := arr]> h) sl = backing h sl.
Proof.
  unfold backing. intros Hne. destruct (ptr sl) as [q|]; [|done].
  rewrite lookup_insert_ne; [done|]. congruence.
Qed.

(** A well-formed slice reads the same in every store that kept its
    array. *)
Lemma slice_frame (h h' : Heap) (sl : Slice) :
  slice_ok h sl = true ->
  (forall q arr, ptr sl = Some q -> h !! q = Some arr -> h' !! q = Some arr) ->
  backing h' sl = backing h sl /\ contents h' sl = contents h sl /\
  slice_ok h' sl = true.
Proof.
  intros Hok Hsame.
  pose proof (slice_ok_inv _ _ Hok) as (_ & _ & Hptr).
  assert (Hb : backing h' sl = backing h sl).
  { unfold backing. destruct (ptr sl) as [q|] eqn:E; [|done].
    destruct (Hptr q eq_refl) as [arr Harr].
    by rewrite Harr, (Hsame q arr eq_refl Harr). }
  split; [done|]. split; [unfold contents; by rewrite Hb|].
  revert Hok. unfold slice_ok. destruct (ptr sl) as [q|] eqn:E; [|done].
  destruct (Hptr q eq_refl) as [arr Harr].
  by rewrite Harr, (Hsame q arr eq_refl Harr).
Qed.

Lemma make_slice_spec (h h1 : Heap) (n : nat) (c : Slice) :
  make_slice h n = (h1, c) ->
  exists p, c = {| ptr := Some p; len := n; cap := n |} /\
            h !! p = None /\ h1 = <[p := replicate n FZero]> h.
Proof.
  unfold make_slice, alloc. intros [= <- <-].
  exists (fresh (dom h)). split; [done|]. split; [|done].
  apply not_elem_of_dom, is_fresh.
Qed.

(** [copy] into a slice of the same length that fills its array. *)
Lemma copy_slice_full (h : Heap) (c src : Slice) (p : nat) :
  slice_ok h c = true -> slice_ok h src = true ->
  ptr c = Some p -> len c = len src -> cap c = len c ->
  copy_slice h c src = <[p := contents h src]> h.
Proof.
  intros Hc Hsrc Hp Hlen Hcap. unfold copy_slice. rewrite Hp.
  pose proof (slice_ok_inv _ _ Hc) as (_ & Hb & _).
  pose proof (contents_length _ _ Hsrc) as Hcl.
  rewrite <- Hlen, Nat.min_id.
  rewrite take_ge by lia. rewrite drop_ge by lia.
  by rewrite app_nil_r.
Qed.

Lemma emit_spec (now : Z) (err : option GoError) (l l' : Local) (st st' : State) :
  slice_ok (heap st) (fieldsCopy l) = true ->
  emit now err l st = (l', st') ->
  let v := verdict err (time_Since now (start (span st))) in
  span st' = span st /\
  out st' = out st ++ log (logger (span st)) (fst (fst v)) (snd (fst v))
                        (contents (heap st) (fieldsCopy l) ++ snd v) /\
  (forall q arr, heap st !! q = Some arr -> ptr (fieldsCopy l) <> Some q ->
                 heap st' !! q = Some arr).
Proof.
  intros Hok Hemit. unfold emit in Hemit.
  destruct (append_slice growcap (heap st) (fieldsCopy l) _)
    as [h1 c1] eqn:E1.
  destruct (append_slice_spec _ _ _ _ _ Hok E1)
    as (Hc1 & Hok1 & _ & Hfr1 & p1 & Hp1 & Hown1).
  assert (Hfr1' : forall q arr, heap st !! q = Some arr ->
            ptr (fieldsCopy l) <> Some q ->
            h1 !! q = Some arr /\ ptr c1 <> Some q).
  { intros q arr Hq Hne. split; [by apply Hfr1|].
    rewrite Hp1. intros [= ->]. destruct Hown1 as [Ho|Ho]; congruence. }
  unfold verdict.
  destruct err as [[msg|]|].
  - destruct (append_slice growcap h1 c1 _) as [h2 c2] eqn:E2.
    destruct (append_slice_spec _ _ _ _ _ Hok1 E2) as (Hc2 & _ & _ & Hfr2 & _).
    injection Hemit as <- <-. simpl.
    split; [done|]. split.
    + by rewrite Hc2, Hc1, <- app_assoc.
    + intros q arr Hq Hne. destruct (Hfr1' q arr Hq Hne). by apply Hfr2.
  - destruct (Second <? _); injection Hemit as <- <-; simpl;
      (split; [done|]); (split; [by rewrite Hc1|]);
      intros q arr Hq Hne; by destruct (Hfr1' q arr Hq Hne).
  - destruct (Second <? _); injection Hemit as <- <-; simpl;
      (split; [done|]); (split; [by rewrite Hc1|]);
      intros q arr Hq Hne; by destruct (Hfr1' q arr Hq Hne).
Qed.

Lemma verdict_enabled (c : Core) (err : option GoError) (elapsed : Z) :
  Enabled c InfoLevel = true ->
  Enabled c (fst (fst (verdict err elapsed))) = true.
Proof.
  unfold Enabled, verdict. intros H. apply Z.leb_le in H. apply Z.leb_le.
  destruct err as [[msg|]|]; [simpl in *; lia| |];
    destruct (Second <? elapsed); simpl in *; lia.
Qed.

Lemma span_ok_inv (st : State) :
  span_ok st = true ->
  mu (span st) = false /\ slice_ok (heap st) (fields (span st)) = true /\
  Enabled (lcore (logger (span st))) InfoLevel = true.
Proof.
  unfold span_ok. intros H.
  apply andb_true_iff in H as [H H3]. apply andb_true_iff in H as [H1 H2].
  apply negb_true_iff in H1. done.
Qed.

(** [Finish] returns, writes exactly [record_of], and changes neither the
    span nor any array that existed before the call. *)
Lemma Finish_spec (now : Z) (err : option GoError) (st : State) :
  span_ok st = true ->
  exists st',
    Finish now err st = Ok st' /\
    span st' = span st /\
    heap st ⊆ heap st' /\
    out st' = out st ++ [record_of now err st].
Proof.
  intros Hok. destruct (span_ok_inv _ Hok) as (Hmu & Hsl & Hen).
  destruct st as [s h o]. cbn [span heap out] in *.
  unfold Finish, call, Finish_body. cbn [run].
  unfold exec at 1. cbn [span heap out]. rewrite Hmu. cbn [obind fst snd].
  unfold exec at 1. cbn [span heap out set_mu fields].
  destruct (make_slice h (len (fields s))) as [h1 c] eqn:Emk.
  destruct (make_slice_spec _ _ _ _ Emk) as (p & -> & Hfresh & ->).
  cbn [obind fst snd].
  unfold exec at 1. cbn [span heap out set_mu fields fieldsCopy].
  set (h1 := <[p := replicate (len (fields s)) FZero]> h).
  assert (Hsub1 : h ⊆ h1) by (by apply insert_subseteq).
  assert (Hsrc1 : backing h1 (fields s) = backing h (fields s) /\
                  contents h1 (fields s) = contents h (fields s) /\
                  slice_ok h1 (fields s) = true).
  { apply slice_frame; [done|]. intros q arr _ Hq.
    eapply lookup_weaken; eauto. }
  destruct Hsrc1 as (_ & Hcont1 & Hok1).
  assert (Hc1 : slice_ok h1 {| ptr := Some p; len := len (fields s);
                               cap := len (fields s) |} = true).
  { unfold slice_ok; cbn [ptr len cap]. subst h1.
    rewrite lookup_insert_eq, length_replicate.
    by rewrite Nat.leb_refl, Nat.eqb_refl. }
  rewrite (copy_slice_full h1 _ _ p Hc1 Hok1) by done.
  rewrite Hcont1. cbn [obind fst snd].
  unfold exec at 1. cbn [span heap out set_mu mu]. cbn [obind fst snd].
  unfold exec. cbn [obind].
  set (l2 := {| loaded := _; fieldsCopy := _ |}).
  set (st2 := {| span := _; heap := _; out := _ |}).
  destruct (emit now err l2 st2) as [l3 st3] eqn:Eemit.
  assert (Hc2 : slice_ok (heap st2) (fieldsCopy l2) = true).
  { subst st2 l2. unfold slice_ok; cbn [heap fieldsCopy ptr len cap].
    rewrite lookup_insert_eq, (contents_length _ _ Hsl).
    by rewrite Nat.leb_refl, Nat.eqb_refl. }
  destruct (emit_spec _ _ _ _ _ _ Hc2 Eemit) as (Hspan & Hout & Hframe).
  exists st3. cbn [fst snd]. split; [done|].
  subst st2 l2. cbn [span heap out fieldsCopy set_mu start logger] in *.
  split. { rewrite Hspan. unfold set_mu; cbn [logger start fields mu].
           rewrite <- Hmu. by destruct s. }
  split.
  { apply map_subseteq_spec. intros q arr Hq. apply Hframe.
    - subst h1. rewrite !lookup_insert_ne; [done| |]; congruence.
    - cbn [ptr]. congruence. }
  rewrite Hout. f_equal. unfold log.
  rewrite verdict_enabled by done.
  unfold record_of, tags_of. cbn [span heap out start logger].
  do 2 f_equal. unfold contents at 1, backing. cbn [ptr len].
  rewrite lookup_insert_eq. cbn [default from_option id].
  rewrite take_ge; [done|]. by rewrite (contents_length _ _ Hsl).
Qed.

(** [SetTag] returns and appends one field to the tag sequence; nothing
    else of the span changes and nothing is written. *)
Lemma SetTag_spec (key : string) (value : GoValue) (st : State) :
  span_ok st = true ->
  exists st',
    SetTag key value st = Ok st' /\
    tags_of st' = tags_of st ++ [zap_Any key value] /\
    span_ok st' = true /\
    out st' = out st /\
    logger (span st') = logger (span st) /\
    start (span st') = start (span st).
Proof.
  intros Hok. destruct (span_ok_inv _ Hok) as (Hmu & Hsl & Hen).
  destruct st as [s h o]. cbn [span heap out] in *.
  unfold SetTag, call, SetTag_body. cbn [run].
  unfold exec at 1. cbn [span heap out]. rewrite Hmu. cbn [obind fst snd].
  unfold exec at 1. cbn [span heap out set_mu fields obind fst snd].
  unfold exec at 1. cbn [span heap out set_mu fields loaded].
  destruct (append_slice growcap h (fields s) (zap_Any key value))
    as [h' sl'] eqn:Eapp.
  destruct (append_slice_spec _ _ _ _ _ Hsl Eapp) as (Hc & Hok' & _).
  cbn [obind fst snd].
  unfold exec. cbn [span heap out set_mu set_fields mu obind fst snd].
  eexists. split; [reflexivity|].
  unfold tags_of, span_ok, set_mu, set_fields.
  cbn [span heap out fields mu logger start].
  rewrite Hc, Hok', Hen. done.
Qed.

Lemma SetTags_spec (tags : list (string * GoValue)) (st : State) :
  span_ok st = true ->
  exists st',
    SetTags tags st = Ok st' /\
    tags_of st' = tags_of st ++ tag_fields tags /\
    span_ok st' = true /\
    out st' = out st /\
    logger (span st') = logger (span st) /\
    start (span st') = start (span st).
Proof.
  revert st. induction tags as [|[k v] tags IH]; intros st Hok.
  - exists st. simpl. by rewrite app_nil_r.
  - destruct (SetTag_spec k v st Hok) as (st1 & E1 & Ht1 & Hok1 & Ho1 & Hl1 & Hs1).
    destruct (IH st1 Hok1) as (st2 & E2 & Ht2 & Hok2 & Ho2 & Hl2 & Hs2).
    exists st2. cbn [SetTags]. rewrite E1. cbn [obind].
    split; [done|]. rewrite Ht2, Ht1, <- app_assoc. simpl.
    repeat split; congruence.
Qed.

Lemma Finish_keeps_ok (now : Z) (err : option GoError) (st st' : State) :
  span_ok st = true -> span st' = span st -> heap st ⊆ heap st' ->
  span_ok st' = true /\ tags_of st' = tags_of st.
Proof.
  intros Hok Hspan Hsub. destruct (span_ok_inv _ Hok) as (Hmu & Hsl & Hen).
  destruct (slice_frame (heap st) (heap st') (fields (span st)) Hsl)
    as (_ & Hc & Hok').
  { intros q arr _ Hq. eapply lookup_weaken; eauto. }
  unfold span_ok, tags_of. rewrite Hspan, Hmu, Hok', Hen, Hc. done.
Qed.

(** *** Threads and the mutex *)

Lemma fire_step (i : nat) (c c' : list Thread * State) :
  fire i c = Some c' -> step c c'.
Proof.
  destruct c as [ts st]. unfold fire. cbn [fst snd].
  destruct (ts !! i) as [t|] eqn:Ei; [|discriminate].
  destruct (code t) as [|a rest] eqn:Ec; [discriminate|].
  destruct (exec a (regs t) st) as [[l' st']| |] eqn:Ee; try discriminate.
  intros [= <-].
  rewrite <- (take_drop_middle ts i t Ei) at 1.
  by apply step_thread with (a := a).
Qed.

Lemma schedule_steps (order : list nat) (c c' : list Thread * State) :
  schedule order c = Some c' -> steps c c'.
Proof.
  intros H. revert c H.
  assert (Htrans : forall a b, step a b -> forall d, steps b d -> steps a d).
  { intros a b Hab d Hbd. induction Hbd as [|x y z _ IH Hyz].
    - eapply steps_step; [apply steps_refl|done].
    - eapply steps_step; [by apply IH|done]. }
  induction order as [|i order IH]; intros c H; simpl in H.
  - injection H as <-. apply steps_refl.
  - destruct (fire i c) as [c1|] eqn:Ef; [|discriminate].
    eapply Htrans; [by eapply fire_step|by apply IH].
Qed.

Lemma holders_app (l1 l2 : list Thread) :
  holders (l1 ++ l2) = (holders l1 + holders l2)%nat.
Proof. induction l1 as [|t l1 IH]; simpl; [done|]. rewrite IH. lia. Qed.

Lemma holders_zero (ts : list Thread) :
  holders ts = 0%nat -> Forall (fun t => holds_lock (code t) = false) ts.
Proof.
  induction ts as [|t ts IH]; simpl; intros H; constructor.
  - destruct (holds_lock (code t)); [lia|done].
  - apply IH. lia.
Qed.

Lemma holds_lock_SetTags_prog (tags : list (string * GoValue)) :
  holds_lock (SetTags_prog tags) = false.
Proof. by destruct tags as [|[k v] tags]. Qed.

Lemma stores_SetTags_prog (tags : list (string * GoValue)) :
  stores (SetTags_prog tags) = tag_fields tags.
Proof.
  induction tags as [|[k v] tags IH]; simpl; [done|]. by rewrite IH.
Qed.

(** The next action of a caller of [SetTag] and what follows it. *)
Lemma tagger_code_cons (a : action) (r : list action) :
  tagger_code (a :: r) ->
  tagger_code r /\
  ((a = ALock /\ holds_lock (a :: r) = false /\ holds_lock r = true /\
    stores (a :: r) = stores r /\ (forall f r', r <> AStore f :: r')) \/
   (a = ALoad /\ holds_lock (a :: r) = true /\ holds_lock r = true /\
    stores (a :: r) = stores r) \/
   (exists f, a = AStore f /\ holds_lock (a :: r) = true /\
    holds_lock r = true /\
    stores (a :: r) = f :: stores r /\ (forall f r', r <> AStore f :: r')) \/
   (a = AUnlock /\ holds_lock (a :: r) = true /\ holds_lock r = false /\
    stores (a :: r) = stores r /\ (forall f r', r <> AStore f :: r'))).
Proof.
  intros H. inversion H as [rest Hr|key value rest|key value rest|rest]; subst.
  - destruct rest as [|[k v] rest]; [discriminate|].
    simpl in Hr. injection Hr as <- <-.
    split; [apply tc_locked|]. left. repeat split; done.
  - split; [apply tc_loaded|]. right; left. repeat split; done.
  - split; [apply tc_stored|]. right; right; left.
    eexists. repeat split; done.
  - split; [apply tc_idle|]. right; right; right.
    repeat split; try done.
    + apply holds_lock_SetTags_prog.
    + intros f r'. by destruct rest as [|[k v] rest].
Qed.

Lemma tagger_not_holding (c : list action) :
  tagger_code c -> holds_lock c = false -> forall f r, c <> AStore f :: r.
Proof.
  intros Hc Hh f r ->. apply tagger_code_cons in Hc as (_ & Hcase).
  destruct Hcase as [(E & _)|[(E & _)|[(f' & _ & Hh' & _)|(E & _)]]];
    congruence.
Qed.

Lemma tagger_inv_same_fields (st st' : State) (t : Thread) :
  fields (span st') = fields (span st) ->
  tagger_inv st t -> tagger_inv st' t.
Proof. intros E [H1 H2]. split; [done|]. intros f r Hc. rewrite E. eauto. Qed.

Lemma tagger_inv_outside (st st' : State) (t : Thread) :
  holds_lock (code t) = false -> tagger_inv st t -> tagger_inv st' t.
Proof.
  intros Hh [H1 H2]. split; [done|]. intros f r Hc.
  by destruct (tagger_not_holding _ H1 Hh f r).
Qed.

Lemma pending_step (before after : list Thread) (t t' : Thread) :
  stores (code t) = stores (code t') ->
  concat (map (fun t => stores (code t)) (before ++ t' :: after)) =
  concat (map (fun t => stores (code t)) (before ++ t :: after)).
Proof.
  intros E. rewrite !map_app, !concat_app. simpl. by rewrite E.
Qed.

(** One action of a caller of [SetTag] keeps the invariant. It is taken
    only while no other thread is inside a critical section; it writes no
    record, leaves logger and start time alone, can only lengthen the tag
    sequence, and leaves every slice that has its own array as it was. *)
Lemma tagger_step (total : list Field) (e : nat)
    (before after : list Thread) (t : Thread)
    (a : action) (rest : list action) (l' : Local) (st st' : State) :
  taggers_inv total e (before ++ t :: after) st ->
  code t = a :: rest ->
  exec a (regs t) st = Ok (l', st') ->
  taggers_inv total e (before ++ {| code := rest; regs := l' |} :: after) st' /\
  e = 0%nat /\
  holds_lock rest = mu (span st') /\
  out st' = out st /\
  logger (span st') = logger (span st) /\
  start (span st') = start (span st) /\
  (exists more, tags_of st' = tags_of st ++ more) /\
  (forall c, snapshot_ok st c ->
             snapshot_ok st' c /\ contents (heap st') c = contents (heap st) c).
Proof.
  intros (Hcnt & Hsl & Hall & Hperm) Hcode Hexec.
  apply Forall_app in Hall as [Hbefore Hall].
  apply Forall_cons in Hall as [[Hshape Hloaded] Hafter].
  rewrite Hcode in Hshape.
  apply tagger_code_cons in Hshape as (Hrest & Hcase).
  rewrite holders_app in Hcnt. cbn [holders] in Hcnt. rewrite Hcode in Hcnt.
  destruct st as [s h o]. cbn [span heap out] in *.
  unfold taggers_inv. rewrite holders_app. cbn [holders code].
  destruct Hcase as [(-> & Hh & Hh' & Hst & Hns)
                    |[(-> & Hh & Hh' & Hst)
                    |[(f & -> & Hh & Hh' & Hst & Hns)
                    |(-> & Hh & Hh' & Hst & Hns)]]];
    rewrite Hh in Hcnt; rewrite Hh'.
  - (* Lock *)
    unfold exec in Hexec. cbn [span heap out] in Hexec.
    destruct (mu s) eqn:Hmu; [discriminate|]. injection Hexec as <- <-.
    cbn [span heap out set_mu mu fields logger start].
    split; [|split; [lia|]; split; [done|]; do 3 (split; [done|]);
             split; [exists []; by rewrite app_nil_r|done]].
    split; [lia|]. split; [done|]. split.
    + apply Forall_app; split;
        [eapply Forall_impl; [exact Hbefore|];
         intros u; by apply tagger_inv_same_fields|].
      apply Forall_cons; split;
        [split; [done|]; cbn [code]; intros f r E; by destruct (Hns f r)|].
      eapply Forall_impl; [exact Hafter|].
      intros u; by apply tagger_inv_same_fields.
    + rewrite (pending_step before after t); [done|].
      cbn [code]. by rewrite Hcode, Hst.
  - (* the read of s.fields *)
    unfold exec in Hexec. injection Hexec as <- <-.
    cbn [span heap out].
    split; [|split; [destruct (mu s); lia|]; split;
             [destruct (mu s); [done|lia]|]; do 3 (split; [done|]);
             split; [exists []; by rewrite app_nil_r|done]].
    split; [lia|]. split; [done|]. split.
    + apply Forall_app; split; [done|].
      apply Forall_cons; split; [|done].
      split; [done|]. by cbn [code regs loaded span].
    + rewrite (pending_step before after t); [done|].
      cbn [code]. by rewrite Hcode, Hst.
  - (* the append and the write of s.fields *)
    pose proof (Hloaded f rest Hcode) as Hld. cbn [span] in Hld.
    unfold exec in Hexec. cbn [span heap out] in Hexec. rewrite Hld in Hexec.
    destruct (append_slice growcap h (fields s) f) as [h' sl'] eqn:Eapp.
    injection Hexec as <- <-.
    destruct (append_slice_spec _ _ _ _ _ Hsl Eapp)
      as (Hc & Hok' & _ & Hframe & p' & Hp' & Hown).
    assert (He : e = 0%nat /\ holders before = 0%nat /\ holders after = 0%nat)
      by (destruct (mu s); lia).
    destruct He as (-> & Hb0 & Ha0).
    unfold tags_of, set_fields in *.
    cbn [span heap out mu fields logger start] in *.
    split; [|split; [done|]; split; [destruct (mu s); [done|lia]|];
             do 3 (split; [done|]); split; [by exists [f]|]].
    + split; [lia|]. split; [done|]. split.
      * apply Forall_app; split.
        { pose proof (holders_zero _ Hb0) as Hz.
          rewrite Forall_forall in Hbefore, Hz. apply Forall_forall.
          intros u Hu. eapply tagger_inv_outside; eauto. }
        apply Forall_cons; split;
          [split; [done|]; cbn [code]; intros g r E; by destruct (Hns g r)|].
        pose proof (holders_zero _ Ha0) as Hz.
        rewrite Forall_forall in Hafter, Hz. apply Forall_forall.
        intros u Hu. eapply tagger_inv_outside; eauto.
      * rewrite Hc. etransitivity; [|exact Hperm].
        rewrite !map_app, !concat_app. cbn [map concat code].
        rewrite Hcode, Hst. rewrite <- !app_assoc.
        apply Permutation_app_head. cbn [app].
        etransitivity; [apply Permutation_middle|].
        apply Permutation_app_head. done.
    + intros c (Hcok & p & Hp & Hne). unfold snapshot_ok.
      cbn [span heap fields] in *.
      destruct (slice_frame h h' c Hcok) as (_ & Hcc & Hcok').
      { intros q arr Hq Hlk. apply Hframe; [|done]. congruence. }
      split; [|done]. split; [done|]. exists p. split; [done|].
      rewrite Hp'. intros [= ->].
      destruct (slice_ok_inv _ _ Hcok) as (_ & _ & Hal).
      destruct (Hal p Hp) as [arr Harr].
      destruct Hown as [Ho|Ho]; congruence.
  - (* Unlock *)
    unfold exec in Hexec. cbn [span heap out] in Hexec.
    destruct (mu s) eqn:Hmu; [|discriminate]. injection Hexec as <- <-.
    cbn [span heap out set_mu mu fields logger start].
    split; [|split; [lia|]; split; [done|]; do 3 (split; [done|]);
             split; [exists []; by rewrite app_nil_r|done]].
    split; [lia|]. split; [done|]. split.
    + apply Forall_app; split;
        [eapply Forall_impl; [exact Hbefore|];
         intros u; by apply tagger_inv_same_fields|].
      apply Forall_cons; split;
        [split; [done|]; cbn [code]; intros f r E; by destruct (Hns f r)|].
      eapply Forall_impl; [exact Hafter|].
      intros u; by apply tagger_inv_same_fields.
    + rewrite (pending_step before after t); [done|].
      cbn [code]. by rewrite Hcode, Hst.
Qed.

Lemma taggers_inv_frame (total : list Field) (e e' : nat)
    (ts : list Thread) (st st' : State) :
  taggers_inv total e ts st ->
  (holders ts + e')%nat = (if mu (span st') then 1 else 0)%nat ->
  fields (span st') = fields (span st) ->
  (forall q arr, ptr (fields (span st)) = Some q ->
                 heap st !! q = Some arr -> heap st' !! q = Some arr) ->
  taggers_inv total e' ts st' /\ tags_of st' = tags_of st.
Proof.
  intros (_ & Hsl & Hall & Hperm) Hcnt Hf Hframe.
  destruct (slice_frame _ (heap st') _ Hsl Hframe) as (_ & Hc & Hok).
  assert (Ht : tags_of st' = tags_of st) by (unfold tags_of; by rewrite Hf).
  split; [|done]. split; [done|]. split; [by rewrite Hf|].
  split; [|by rewrite Ht].
  eapply Forall_impl; [exact Hall|].
  intros u. by apply tagger_inv_same_fields.
Qed.

(** One action of the caller of [Finish] keeps the invariant. *)
Lemma finisher_step (total : list Field) (now : Z) (err : option GoError)
    (st0 : State) (fin : Thread) (taggers : list Thread)
    (a : action) (rest : list action) (l' : Local) (st st' : State) :
  Enabled (lcore (logger (span st0))) InfoLevel = true ->
  taggers_inv total (if holds_lock (code fin) then 1 else 0) taggers st ->
  finisher_inv now err st0 st fin ->
  logger (span st) = logger (span st0) ->
  start (span st) = start (span st0) ->
  code fin = a :: rest ->
  exec a (regs fin) st = Ok (l', st') ->
  taggers_inv total (if holds_lock rest then 1 else 0) taggers st' /\
  finisher_inv now err st0 st' {| code := rest; regs := l' |} /\
  logger (span st') = logger (span st0) /\
  start (span st') = start (span st0).
Proof.
  intros Hen Htag (k & Hk & Hinv) Hlg Hst Hcode Hexec.
  rewrite Hcode in Htag, Hk.
  pose proof Htag as (Hcnt & Hsl & _).
  destruct st as [s h o]. cbn [span heap out] in *.
  unfold Finish_body in Hk.
  destruct k as [|[|[|[|[|k]]]]]; cbn [drop] in Hk;
    [| | | | |by destruct k]; injection Hk as -> ->;
    cbn [holds_lock] in *; unfold exec in Hexec; cbn [span heap out] in Hexec.
  - (* Lock *)
    destruct (mu s) eqn:Hmu; [discriminate|]. injection Hexec as <- <-.
    destruct (taggers_inv_frame total _ 1 taggers _
                {| span := set_mu true s; heap := h; out := o |} Htag)
      as [Htag' _]; [cbn [span mu set_mu]; lia|done|done|].
    split; [done|]. split; [|done]. by exists 1%nat.
  - (* make *)
    destruct (make_slice h (len (fields s))) as [h1 c] eqn:Emk.
    injection Hexec as <- <-.
    destruct (make_slice_spec _ _ _ _ Emk) as (p & -> & Hfresh & ->).
    destruct (taggers_inv_frame total _ 1 taggers _
                {| span := s; out := o;
                   heap := <[p := replicate (len (fields s)) FZero]> h |} Htag)
      as [Htag' _]; [done|done| |].
    { cbn [span heap]. intros q arr _ Hq.
      rewrite lookup_insert_ne; [done|]. congruence. }
    split; [done|]. split; [|done]. exists 2%nat. split; [done|].
    cbn [regs fieldsCopy span heap out len cap]. split; [done|].
    split; [|done]. split.
    + unfold slice_ok. cbn [ptr len cap heap].
      rewrite lookup_insert_eq, length_replicate.
      by rewrite Nat.leb_refl, Nat.eqb_refl.
    + exists p. split; [done|]. cbn [span]. intros Hp.
      destruct (slice_ok_inv _ _ Hsl) as (_ & _ & Hal).
      destruct (Hal p Hp) as [arr Harr]. congruence.
  - (* copy *)
    injection Hexec as <- <-.
    destruct Hinv as (Ho & (Hcok & p & Hp & Hne) & Hlen & Hcap).
    cbn [span heap] in *.
    rewrite (copy_slice_full h _ _ p Hcok Hsl Hp Hlen Hcap).
    destruct (taggers_inv_frame total _ 1 taggers _
                {| span := s; out := o;
                   heap := <[p := contents h (fields s)]> h |} Htag)
      as [Htag' Htags]; [done|done| |].
    { cbn [span heap]. intros q arr Hq Hlk.
      rewrite lookup_insert_ne; [done|]. congruence. }
    split; [done|]. split; [|done]. exists 3%nat. split; [done|].
    cbn [regs span heap out]. split; [done|].
    assert (Hcok' : slice_ok (<[p := contents h (fields s)]> h)
                      (fieldsCopy (regs fin)) = true).
    { unfold slice_ok. rewrite Hp, lookup_insert_eq.
      rewrite (contents_length _ _ Hsl), Hcap, Hlen.
      by rewrite Nat.leb_refl, Nat.eqb_refl. }
    split; [split; [done|]; by exists p|].
    exists []. rewrite app_nil_r, Htags. unfold tags_of, contents at 2, backing.
    cbn [span heap]. rewrite Hp, lookup_insert_eq. cbn [default from_option id].
    rewrite take_ge; [done|]. rewrite (contents_length _ _ Hsl). lia.
  - (* Unlock *)
    destruct (mu s) eqn:Hmu; [|discriminate]. injection Hexec as <- <-.
    destruct (taggers_inv_frame total _ 0 taggers _
                {| span := set_mu false s; heap := h; out := o |} Htag)
      as [Htag' Htags]; [cbn [span mu set_mu]; lia|done|done|].
    split; [done|]. split; [|done]. exists 4%nat. split; [done|].
    destruct Hinv as (Ho & Hsnap & later & Hlater).
    cbn [regs span heap out]. split; [done|]. split; [done|].
    exists later. by rewrite Htags.
  - (* the record *)
    destruct Hinv as (Ho & (Hcok & p & Hp & Hne) & later & Hlater).
    destruct (emit now err (regs fin) {| span := s; heap := h; out := o |})
      as [l2 st2] eqn:Eemit.
    injection Hexec as <- <-.
    destruct (emit_spec _ _ _ _ _ _ Hcok Eemit) as (Hspan & Hout & Hframe).
    cbn [span heap out] in *.
    destruct (taggers_inv_frame total _ 0 taggers _ st2 Htag)
      as [Htag' Htags]; [by rewrite Hspan|by rewrite Hspan| |].
    { cbn [span heap]. intros q arr Hq Hlk. apply Hframe; [done|].
      congruence. }
    split; [done|]. rewrite Hspan. split; [|done].
    exists 5%nat. split; [done|]. cbn [regs].
    exists (contents h (fieldsCopy (regs fin))), later.
    split; [by rewrite Htags|].
    rewrite Hout, Ho. unfold log. rewrite Hlg, Hst.
    by rewrite verdict_enabled.
Qed.

Lemma callers_init (st0 : State) (tss : list (list (string * GoValue))) :
  span_ok st0 = true ->
  taggers_inv (all_tags st0 tss) 0 (callers tss) st0.
Proof.
  intros Hok. destruct (span_ok_inv _ Hok) as (Hmu & Hsl & _).
  unfold taggers_inv, all_tags, callers. rewrite Hmu.
  split; [|split; [done|split]].
  - induction tss as [|tags tss IH]; cbn [map holders spawn code]; [done|].
    rewrite holds_lock_SetTags_prog. lia.
  - apply Forall_forall. intros t Ht.
    apply list_elem_of_fmap in Ht as (tags & -> & _).
    split; [apply tc_idle|]. cbn [spawn code]. intros f r E.
    by destruct tags as [|[k v] tags].
  - apply Permutation_app_head.
    rewrite map_map. cbn [spawn code].
    erewrite map_ext; [done|]. intros tags. apply stores_SetTags_prog.
Qed.

(** Callers of [SetTag] on their own. *)
Lemma callers_invariant (st0 : State) (tss : list (list (string * GoValue)))
    (ts : list Thread) (st : State) :
  span_ok st0 = true ->
  steps (callers tss, st0) (ts, st) ->
  taggers_inv (all_tags st0 tss) 0 ts st /\
  out st = out st0 /\
  logger (span st) = logger (span st0) /\
  start (span st) = start (span st0).
Proof.
  intros Hok Hsteps.
  remember (callers tss, st0) as c0 eqn:E0.
  remember (ts, st) as c eqn:E. revert ts st E.
  induction Hsteps as [c|c1 c2 c3 Hsteps IH Hstep]; intros ts st E.
  - assert (Heq : (callers tss, st0) = (ts, st)) by congruence.
    injection Heq as <- <-. split; [by apply callers_init|done].
  - inversion Hstep as [before t after a rest l' st1 st2 Hc He E1 E2].
    assert (Heq : (ts, st) =
              (before ++ {| code := rest; regs := l' |} :: after, st2))
      by congruence.
    injection Heq as -> ->.
    destruct (IH E0 _ _ (eq_sym E1)) as (Hinv & Ho & Hl & Hs).
    destruct (tagger_step _ _ _ _ _ _ _ _ _ _ Hinv Hc He)
      as (Hinv' & _ & _ & Ho' & Hl' & Hs' & _).
    split; [done|]. repeat split; congruence.
Qed.

Lemma racers_init (now : Z) (err : option GoError) (st0 : State)
    (tss : list (list (string * GoValue))) :
  span_ok st0 = true ->
  race_inv now err (all_tags st0 tss) st0
    (spawn (Finish_body now err) :: callers tss, st0).
Proof.
  intros Hok. unfold race_inv. cbn [fst snd spawn code holds_lock Finish_body].
  split; [by apply callers_init|]. split; [|done]. by exists 0%nat.
Qed.

(** What callers of [SetTag] do leaves the caller of [Finish] where its
    invariant holds. *)
Lemma finisher_inv_frame (now : Z) (err : option GoError)
    (st0 st st' : State) (fin : Thread) :
  finisher_inv now err st0 st fin ->
  holds_lock (code fin) = false ->
  out st' = out st ->
  (exists more, tags_of st' = tags_of st ++ more) ->
  (forall c, snapshot_ok st c ->
             snapshot_ok st' c /\ contents (heap st') c = contents (heap st) c) ->
  finisher_inv now err st0 st' fin.
Proof.
  intros (k & Hk & Hinv) Hh Ho (more & Hmore) Hsnap.
  rewrite Hk in Hh. unfold Finish_body in Hh.
  exists k. split; [done|].
  destruct k as [|[|[|[|[|k]]]]]; cbn [drop holds_lock] in Hh;
    try discriminate; cbn zeta in *.
  - congruence.
  - destruct Hinv as (Ho' & Hs & later & Hlater).
    destruct (Hsnap _ Hs) as [Hs' Hc].
    split; [congruence|]. split; [done|].
    exists (later ++ more). by rewrite Hmore, Hlater, Hc, app_assoc.
  - destruct Hinv as (snap & later & Hlater & Ho').
    exists snap, (later ++ more). split; [|congruence].
    by rewrite Hmore, Hlater, app_assoc.
Qed.

(** [Finish] racing with the callers of [SetTag]. *)
Lemma race_invariant (now : Z) (err : option GoError) (st0 : State)
    (tss : list (list (string * GoValue))) (c : list Thread * State) :
  span_ok st0 = true ->
  steps (spawn (Finish_body now err) :: callers tss, st0) c ->
  race_inv now err (all_tags st0 tss) st0 c.
Proof.
  intros Hok Hsteps. destruct (span_ok_inv _ Hok) as (_ & _ & Hen).
  remember (spawn (Finish_body now err) :: callers tss, st0) as c0 eqn:E0.
  induction Hsteps as [c|c1 c2 c3 Hsteps IH Hstep].
  - subst c. by apply racers_init.
  - specialize (IH E0).
    inversion Hstep as [before t after a rest l' st1 st2 Hc He E1 E2].
    subst c2 c3. unfold race_inv in *. cbn [fst snd] in *.
    destruct before as [|fin taggers]; cbn [app] in *.
    + destruct IH as (Htag & Hfin & Hl & Hs).
      by eapply finisher_step.
    + destruct IH as (Htag & Hfin & Hl & Hs).
      destruct (tagger_step _ _ _ _ _ _ _ _ _ _ Htag Hc He)
        as (Htag' & He0 & _ & Ho' & Hl' & Hs' & Hmore & Hsnap).
      assert (Hh : holds_lock (code fin) = false)
        by (destruct (holds_lock (code fin)); [discriminate|done]).
      split; [done|]. split; [|split; congruence].
      by eapply finisher_inv_frame.
Qed.

Lemma holders_ge (ts : list Thread) (t : Thread) :
  In t ts -> holds_lock (code t) = true -> (1 <= holders ts)%nat.
Proof.
  induction ts as [|u ts IH]; [done|]. intros [->|Hin] Hh; cbn [holders].
  - rewrite Hh. lia.
  - specialize (IH Hin Hh). lia.
Qed.

Lemma finished_no_stores (ts : list Thread) :
  finished ts -> concat (map (fun t => stores (code t)) ts) = [].
Proof.
  induction 1 as [|t ts Ht _ IH]; [done|]. cbn [map concat].
  by rewrite Ht, IH.
Qed.

Lemma finished_no_holders (ts : list Thread) :
  finished ts -> holders ts = 0%nat.
Proof.
  induction 1 as [|t ts Ht _ IH]; [done|]. cbn [holders].
  by rewrite Ht, IH.
Qed.

Lemma verdict_length (err : option GoError) (elapsed : Z) :
  length (snd (verdict err elapsed)) =
  match err with Some (Some _) => 2%nat | _ => 1%nat end.
Proof.
  unfold verdict. destruct err as [[msg|]|]; [done| |];
    by destruct (Second <? elapsed).
Qed.

(** *** No deadlock, no endless run *)

Lemma exec_enabled (a : action) (l : Local) (st : State) :
  (a = ALock -> mu (span st) = false) ->
  (a = AUnlock -> mu (span st) = true) ->
  exists l' st', exec a l st = Ok (l', st').
Proof.
  intros Hlock Hunlock. destruct a; unfold exec.
  - rewrite Hlock by done. eauto.
  - rewrite Hunlock by done. eauto.
  - eauto.
  - destruct (append_slice growcap (heap st) (loaded l) f). eauto.
  - destruct (make_slice (heap st) (len (fields (span st)))). eauto.
  - eauto.
  - destruct (emit now err l st). eauto.
Qed.

Lemma finished_or_running (ts : list Thread) :
  finished ts \/
  exists before t after a r, ts = before ++ t :: after /\ code t = a :: r.
Proof.
  induction ts as [|t ts [IH|(before & u & after & a & r & -> & Hu)]].
  - left. constructor.
  - destruct (code t) as [|a r] eqn:Ec.
    + left. by constructor.
    + right. by exists [], t, ts, a, r.
  - right. by exists (t :: before), u, after, a, r.
Qed.

Lemma holders_pos (ts : list Thread) :
  (1 <= holders ts)%nat ->
  exists before t after,
    ts = before ++ t :: after /\ holds_lock (code t) = true.
Proof.
  induction ts as [|t ts IH]; cbn [holders]; [lia|]. intros H.
  destruct (holds_lock (code t)) eqn:Eh.
  - by exists [], t, ts.
  - destruct IH as (before & u & after & -> & Hu); [lia|].
    by exists (t :: before), u, after.
Qed.

Lemma remaining_app (l1 l2 : list Thread) :
  remaining (l1 ++ l2) = (remaining l1 + remaining l2)%nat.
Proof. induction l1 as [|t l1 IH]; cbn [app remaining]; lia. Qed.

(** Every step consumes one action: a run from [c] takes at most
    [remaining (fst c)] steps. *)
Lemma step_remaining (c c' : list Thread * State) :
  step c c' -> remaining (fst c) = S (remaining (fst c')).
Proof.
  intros Hstep. inversion Hstep as [before t after a rest l' st st' Hc He].
  cbn [fst]. rewrite !remaining_app. cbn [remaining code]. rewrite Hc.
  cbn [length]. lia.
Qed.

(** X11. No deadlock: in every state [Finish] and the callers of [SetTag]
    can reach, either all have returned or some thread can take its next
    action: the mutex is never left held by a thread that has returned,
    nor waited for by all. *)
Lemma race_progress (now : Z) (err : option GoError) (st0 : State)
    (tss : list (list (string * GoValue))) (ts : list Thread) (st : State) :
  span_ok st0 = true ->
  steps (spawn (Finish_body now err) :: callers tss, st0) (ts, st) ->
  finished ts \/ exists c', step (ts, st) c'.
Proof.
  intros Hok Hsteps.
  pose proof (race_invariant now err st0 tss _ Hok Hsteps) as Hinv.
  unfold race_inv in Hinv. cbn [fst snd] in Hinv.
  destruct ts as [|fin taggers]; [done|].
  destruct Hinv as ((Hcnt & _ & Hall & _) & (k & Hk & _) & _).
  unfold Finish_body in Hk.
  assert (Hgo : forall before t after a r,
            fin :: taggers = before ++ t :: after -> code t = a :: r ->
            (a = ALock -> mu (span st) = false) ->
            (a = AUnlock -> mu (span st) = true) ->
            exists c', step (fin :: taggers, st) c').
  { intros before t after a r -> Hc Hl Hu.
    destruct (exec_enabled a (regs t) st Hl Hu) as (l' & st' & He).
    eexists. by eapply step_thread. }
  assert (Htag : forall t a r, In t taggers -> code t = a :: r ->
            (a = ALock /\ holds_lock (code t) = false) \/
            (a <> ALock /\ holds_lock (code t) = true)).
  { intros t a r Hin Hc. rewrite Forall_forall in Hall.
    destruct (Hall t (proj2 (list_elem_of_In _ _) Hin)) as [Hshape _].
    rewrite Hc in Hshape |- *.
    apply tagger_code_cons in Hshape as (_ & Hcase).
    destruct Hcase as [(-> & Hh & _)|[(-> & Hh & _)|[(f & -> & Hh & _)|(-> & Hh & _)]]];
      [by left|by right..]. }
  destruct (mu (span st)) eqn:Hmu.
  - (* the mutex is held: its holder can go on *)
    right. destruct (holds_lock (code fin)) eqn:Hfin.
    + destruct k as [|[|[|[|[|k]]]]]; cbn [drop] in Hk; rewrite Hk in Hfin;
        try discriminate; try (by destruct k);
        by eapply (Hgo [] fin taggers).
    + destruct (holders_pos taggers) as (before & t & after & -> & Ht); [lia|].
      destruct (code t) as [|a r] eqn:Hc; [discriminate|].
      destruct (Htag t a r) as [[_ Hn]|[Hne _]];
        [apply in_or_app; right; by left|done|congruence|].
      by eapply (Hgo (fin :: before) t after a r).
  - (* the mutex is free: whoever has actions left can take the next *)
    destruct (finished_or_running (fin :: taggers))
      as [Hdone|(before & t & after & a & r & E & Hc)]; [by left|].
    right. eapply (Hgo before t after a r E Hc); [done|].
    intros ->. exfalso.
    assert (Hh : holds_lock (code t) = true) by (by rewrite Hc).
    assert (Hin : In t (fin :: taggers))
      by (rewrite E; apply in_or_app; right; by left).
    pose proof (holders_ge _ _ Hin Hh) as Hge. cbn [holders] in Hge. lia.
Qed.

(** *** The span lifecycle *)

(** C1. A span finished with a nil error and an elapsed time of at most
    one second is reported at info level; with a nil error and more than
    one second, at warn level; with a non-nil referenced error, whatever
    the elapsed time, at error level. The error case is tried first,
    then the slow one. *)
Theorem Finish_classification (now : Z) (err : option GoError) (st : State) :
  span_ok st = true ->
  exists st' e,
    Finish now err st = Ok st' /\
    out st' = out st ++ [e] /\
    let elapsed := time_Since now (start (span st)) in
    (forall msg, err = Some (Some msg) ->
       entry_level e = ErrorLevel /\
       entry_msg e = "span finished with error") /\
    (err = None \/ err = Some None -> Second < elapsed ->
       entry_level e = WarnLevel /\ entry_msg e = "span finished slowly") /\
    (err = None \/ err = Some None -> elapsed <= Second ->
       entry_level e = InfoLevel /\
       entry_msg e = "span finished successfully").
Proof.
  intros Hok.
  destruct (Finish_spec now err st Hok) as (st' & Hfin & _ & _ & Hout).
  exists st', (record_of now err st). split; [done|]. split; [done|].
  unfold record_of, verdict. cbn [entry_level entry_msg].
  split; [|split].
  - by intros msg ->.
  - intros Herr Hslow. apply Z.ltb_lt in Hslow.
    destruct Herr as [-> | ->]; by rewrite Hslow.
  - intros Herr Hfast.
    assert (Hnot : (Second <? time_Since now (start (span st))) = false)
      by (apply Z.ltb_ge; lia).
    destruct Herr as [-> | ->]; by rewrite Hnot.
Qed.

(** C2. Each call of [Finish] writes exactly one record, through the
    span's own logger; the record's fields are the tag sequence as it was
    at the call followed by the duration field, which is there in every
    case, the error-level one included (where the error field follows
    it). *)
Theorem Finish_emits_one_record (now : Z) (err : option GoError) (st : State) :
  span_ok st = true ->
  exists st' e,
    Finish now err st = Ok st' /\
    out st' = out st ++ [e] /\
    entry_logger e = logger (span st) /\
    entry_fields e =
      tags_of st
      ++ zap_Duration "duration" (time_Since now (start (span st)))
      :: match err with
         | Some (Some msg) => [FError "error" msg]
         | _ => []
         end.
Proof.
  intros Hok.
  destruct (Finish_spec now err st Hok) as (st' & Hfin & _ & _ & Hout).
  exists st', (record_of now err st). split; [done|]. split; [done|].
  split; [done|].
  unfold record_of, verdict. cbn [entry_fields].
  destruct err as [[msg|]|]; [done| |];
    by destruct (Second <? time_Since now (start (span st))).
Qed.

(** C9. [Finish] called twice writes two records; nothing detects the
    second call. Each record is built from the tags the span has at that
    call: tags set between the two calls are in the second record and not
    in the first. *)
Theorem double_Finish (now1 now2 : Z) (err1 err2 : option GoError)
    (tags : list (string * GoValue)) (st : State) :
  span_ok st = true ->
  exists st1 st2 st3 e1 e2,
    Finish now1 err1 st = Ok st1 /\
    SetTags tags st1 = Ok st2 /\
    Finish now2 err2 st2 = Ok st3 /\
    out st3 = out st ++ [e1; e2] /\
    entry_fields e1 =
      tags_of st ++ snd (verdict err1 (time_Since now1 (start (span st)))) /\
    entry_fields e2 =
      (tags_of st ++ tag_fields tags)
      ++ snd (verdict err2 (time_Since now2 (start (span st)))).
Proof.
  intros Hok.
  destruct (Finish_spec now1 err1 st Hok) as (st1 & Hf1 & Hsp1 & Hsub1 & Ho1).
  destruct (Finish_keeps_ok now1 err1 st st1 Hok Hsp1 Hsub1) as [Hok1 Ht1].
  destruct (SetTags_spec tags st1 Hok1)
    as (st2 & Hs2 & Ht2 & Hok2 & Ho2 & _ & Hst2).
  destruct (Finish_spec now2 err2 st2 Hok2) as (st3 & Hf3 & _ & _ & Ho3).
  exists st1, st2, st3, (record_of now1 err1 st), (record_of now2 err2 st2).
  do 3 (split; [done|]). split.
  - rewrite Ho3, Ho2, Ho1, <- app_assoc. done.
  - split; [done|]. unfold record_of. cbn [entry_fields].
    by rewrite Ht2, Ht1, Hst2, Hsp1.
Qed.

(** C10. [Finish] leaves the span as it found it. The duration field (and
    the error field) go to a copy of the tag sequence in an array of its
    own: after the call the span's logger, start time and tag slice are
    what they were, the tag sequence reads the same, and every array that
    existed before the call is untouched. *)
Theorem Finish_frame (now : Z) (err : option GoError) (st : State) :
  span_ok st = true ->
  exists st',
    Finish now err st = Ok st' /\
    span st' = span st /\
    tags_of st' = tags_of st /\
    heap st ⊆ heap st'.
Proof.
  intros Hok.
  destruct (Finish_spec now err st Hok) as (st' & Hfin & Hsp & Hsub & _).
  destruct (Finish_keeps_ok now err st st' Hok Hsp Hsub) as [_ Ht].
  by exists st'.
Qed.

(** C8. Callers of [SetTag] running concurrently on one span, with or
    without a concurrent [Finish].

    In every state the interleaving can reach: at most one thread is
    inside a critical section, and one is exactly when the mutex is held;
    a thread about to read or write the tag sequence (the two halves of
    the append in [SetTag], the [make] and the [copy] of [Finish]) holds
    the mutex; the thread about to write the record does not. When all
    have returned, one record has been written; its fields are a snapshot
    followed by the duration (and error) field, the snapshot is an
    initial segment of the final tag sequence, and the final tag sequence
    holds exactly the fields the span had and the callers appended.

    When [Finish] is called after the callers have returned, its
    snapshot is that whole sequence, and the number of fields of the
    record is the number of those fields plus the one or two it adds. *)
Theorem concurrent_SetTag (now : Z) (err : option GoError) (st0 : State)
    (tss : list (list (string * GoValue))) :
  span_ok st0 = true ->
  let added := snd (verdict err (time_Since now (start (span st0)))) in
  (forall ts st,
      steps (spawn (Finish_body now err) :: callers tss, st0) (ts, st) ->
      holders ts = (if mu (span st) then 1 else 0)%nat /\
      (forall t a r, In t ts -> code t = a :: r -> touches_tags a = true ->
                     holds_lock (code t) = true /\ mu (span st) = true) /\
      (forall t now' err' r, In t ts -> code t = AEmit now' err' :: r ->
                     holds_lock (code t) = false) /\
      (finished ts ->
       exists e snap later,
         out st = out st0 ++ [e] /\
         entry_fields e = snap ++ added /\
         tags_of st = snap ++ later /\
         Permutation (tags_of st) (all_tags st0 tss))) /\
  (forall ts st,
      steps (callers tss, st0) (ts, st) ->
      finished ts ->
      Permutation (tags_of st) (all_tags st0 tss) /\
      exists st' e,
        Finish now err st = Ok st' /\
        out st' = out st0 ++ [e] /\
        entry_fields e = tags_of st ++ added /\
        length (entry_fields e) =
          (length (all_tags st0 tss)
           + match err with Some (Some _) => 2 | _ => 1 end)%nat).
Proof.
  intros Hok added. split.
  - intros ts st Hsteps.
    pose proof (race_invariant now err st0 tss _ Hok Hsteps) as Hinv.
    unfold race_inv in Hinv. cbn [fst snd] in Hinv.
    destruct ts as [|fin taggers]; [done|].
    destruct Hinv as ((Hcnt & Hsl & Hall & Hperm) & (k & Hk & Hfin) & Hl & Hs).
    unfold Finish_body in Hk.
    assert (Hmu : forall t, In t (fin :: taggers) ->
              holds_lock (code t) = true -> mu (span st) = true).
    { intros t Hin Hh.
      pose proof (holders_ge _ _ Hin Hh) as Hge. cbn [holders] in Hge.
      destruct (mu (span st)); [done|]. lia. }
    split; [cbn [holders]; lia|]. split; [|split].
    + intros t a r Hin Hc Ha.
      assert (Hh : holds_lock (code t) = true); [|by eauto].
      destruct Hin as [<-|Hin].
      * rewrite Hc in Hk.
        destruct k as [|[|[|[|[|k]]]]]; cbn [drop] in Hk;
          try (by destruct k); injection Hk as -> ->; try discriminate;
          by rewrite Hc.
      * rewrite Forall_forall in Hall.
        destruct (Hall t (proj2 (list_elem_of_In _ _) Hin)) as [Hshape _].
        rewrite Hc in Hshape |- *.
        apply tagger_code_cons in Hshape as (_ & Hcase).
        destruct Hcase as [(-> & _)|[(-> & Hh & _)|[(f & -> & Hh & _)|(-> & _)]]];
          done.
    + intros t now' err' r [<-|Hin] Hc.
      * rewrite Hc in Hk |- *.
        destruct k as [|[|[|[|[|k]]]]]; cbn [drop] in Hk;
          try (by destruct k); try discriminate.
        by injection Hk as _ _ ->.
      * rewrite Forall_forall in Hall.
        destruct (Hall t (proj2 (list_elem_of_In _ _) Hin)) as [Hshape _].
        rewrite Hc in Hshape.
        apply tagger_code_cons in Hshape as (_ & Hcase).
        destruct Hcase as [(E & _)|[(E & _)|[(f & E & _)|(E & _)]]];
          discriminate.
    + intros Hdone. apply Forall_cons in Hdone as [Hfdone Htdone].
      rewrite Hfdone in Hk.
      destruct k as [|[|[|[|[|k]]]]]; cbn [drop] in Hk; try discriminate.
      destruct Hfin as (snap & later & Hlater & Hout).
      eexists _, snap, later. split; [exact Hout|].
      split; [done|]. split; [done|].
      rewrite (finished_no_stores _ Htdone), app_nil_r in Hperm. done.
  - intros ts st Hsteps Hdone.
    destruct (callers_invariant st0 tss ts st Hok Hsteps)
      as ((Hcnt & Hsl & _ & Hperm) & Ho & Hl & Hs).
    rewrite (finished_no_stores _ Hdone), app_nil_r in Hperm.
    split; [done|].
    destruct (span_ok_inv _ Hok) as (_ & _ & Hen).
    assert (Hok' : span_ok st = true).
    { unfold span_ok. rewrite Hsl, Hl, Hen.
      rewrite (finished_no_holders _ Hdone) in Hcnt.
      destruct (mu (span st)); [lia|done]. }
    destruct (Finish_spec now err st Hok') as (st' & Hfin & _ & _ & Hout).
    exists st', (record_of now err st). split; [done|].
    split; [by rewrite Hout, Ho|].
    unfold record_of. cbn [entry_fields]. rewrite Hs. split; [done|].
    rewrite length_app, verdict_length.
    by rewrite (Permutation_length Hperm).
Qed.

(** *** Further properties of the span lifecycle *)

(** X8. The whole life of a span: started on any carrier, tagged any number
    of times and finished, it writes exactly one record, through the logger
    built at [StartSpan], whose fields are the tags in the order they were
    set followed by the duration measured from the start reading (and the
    error). Nothing has to be assumed of the store or of the carrier. *)
Theorem span_lifecycle (env : Env) (ctx : Context) (name : string)
    (tags : list (string * GoValue)) (now : Z) (err : option GoError)
    (h : Heap) (o : list Entry) :
  let st0 := {| span := fst (StartSpan env ctx name); heap := h; out := o |} in
  let v := verdict err (time_Since now (time_Now env)) in
  exists st1 st2,
    SetTags tags st0 = Ok st1 /\
    Finish now err st1 = Ok st2 /\
    out st2 = o ++ [ {| entry_logger := logger (fst (StartSpan env ctx name));
                        entry_level := fst (fst v);
                        entry_msg := snd (fst v);
                        entry_fields := tag_fields tags ++ snd v |} ].
Proof.
  cbn zeta.
  set (st0 := {| span := fst (StartSpan env ctx name); heap := h; out := o |}).
  assert (Hok : span_ok st0 = true) by reflexivity.
  destruct (SetTags_spec tags st0 Hok) as (st1 & Hs1 & Ht1 & Hok1 & Ho1 & Hl1 & Hst1).
  destruct (Finish_spec now err st1 Hok1) as (st2 & Hf2 & _ & _ & Ho2).
  exists st1, st2. split; [done|]. split; [done|].
  rewrite Ho2, Ho1. unfold record_of. by rewrite Ht1, Hl1, Hst1.
Qed.

(** X9. [SetTag] calls made in turn on a span whose mutex is free all
    return; the tag sequence grows by one field per call, in call order,
    after the tags it had, repeated keys included; no record is written,
    logger and start time stay, and the mutex is free again. *)
Theorem SetTags_append_in_order (tags : list (string * GoValue)) (st : State) :
  span_ok st = true ->
  exists st',
    SetTags tags st = Ok st' /\
    tags_of st' = tags_of st ++ tag_fields tags /\
    length (tags_of st') = (length (tags_of st) + length tags)%nat /\
    out st' = out st /\
    logger (span st') = logger (span st) /\
    start (span st') = start (span st) /\
    mu (span st') = false.
Proof.
  intros Hok.
  destruct (SetTags_spec tags st Hok) as (st' & Hs & Ht & Hok' & Ho & Hl & Hst).
  destruct (span_ok_inv _ Hok') as (Hmu & _).
  exists st'. split; [done|]. split; [done|]. split; [|done].
  rewrite Ht, length_app. unfold tag_fields. by rewrite length_map.
Qed.

Lemma time_Since_slow (now start0 : Z) :
  Second < time_Since now start0 <-> Second < now - start0.
Proof.
  unfold time_Since, time_Sub, minDuration, maxDuration, Second.
  change (2 ^ 63) with 9223372036854775808. lia.
Qed.

(** X10. The level in terms of the two clock readings: with no error to
    report, the record is at warn level exactly when the clock has advanced
    by more than one second since the start, and at info level otherwise,
    also when the clock went backwards or the difference overflows a
    duration. A nil pointer and a pointer to a nil error give the same
    result. *)
Theorem Finish_level_by_clock (now : Z) (st : State) :
  span_ok st = true ->
  Finish now None st = Finish now (Some None) st /\
  exists st' e,
    Finish now None st = Ok st' /\
    out st' = out st ++ [e] /\
    (entry_level e = WarnLevel <-> Second < now - start (span st)) /\
    (entry_level e = InfoLevel <-> now - start (span st) <= Second).
Proof.
  intros Hok.
  destruct (Finish_spec now None st Hok) as (st' & Hfin & _ & _ & Hout).
  split.
  - unfold Finish, call, Finish_body. cbn [run].
    repeat match goal with
           | |- obind ?m _ = obind ?m _ => destruct m as [[? ?]| |]; cbn [obind]
           end; try done.
  - exists st', (record_of now None st). split; [done|]. split; [done|].
    unfold record_of, verdict. cbn [entry_level].
    pose proof (time_Since_slow now (start (span st))) as Hslow.
    destruct (Z.ltb_spec Second (time_Since now (start (span st))));
      cbn [fst]; split; split; try done; try lia; intros; lia.
Qed.

(** *** Further properties of the interleaved executions *)

Lemma exec_not_ok (a : action) (l : Local) (st : State) :
  (exec a l st = Fatal -> a = AUnlock /\ mu (span st) = false) /\
  (exec a l st = Blocked -> a = ALock /\ mu (span st) = true).
Proof.
  destruct a; unfold exec.
  - destruct (mu (span st)); split; done.
  - destruct (mu (span st)); split; done.
  - split; discriminate.
  - destruct (append_slice growcap (heap st) (loaded l) f); split; discriminate.
  - destruct (make_slice (heap st) (len (fields (span st)))); split; discriminate.
  - split; discriminate.
  - split; discriminate.
Qed.

(** X12. However [Finish] and the callers of [SetTag] interleave, no thread
    ever unlocks a mutex that is not held (the runtime would abort), and
    the only action a thread can wait on is taking the mutex while another
    holds it. *)
Theorem race_never_fatal (now : Z) (err : option GoError) (st0 : State)
    (tss : list (list (string * GoValue))) (ts : list Thread) (st : State) :
  span_ok st0 = true ->
  steps (spawn (Finish_body now err) :: callers tss, st0) (ts, st) ->
  forall t a r, In t ts -> code t = a :: r ->
    exec a (regs t) st <> Fatal /\
    (exec a (regs t) st = Blocked ->
       a = ALock /\ exists u, In u ts /\ holds_lock (code u) = true).
Proof.
  intros Hok Hsteps t a r Hin Hc.
  pose proof (race_invariant now err st0 tss _ Hok Hsteps) as Hinv.
  unfold race_inv in Hinv. cbn [fst snd] in Hinv.
  destruct ts as [|fin taggers]; [done|].
  destruct Hinv as ((Hcnt & _) & _).
  destruct (exec_not_ok a (regs t) st) as [Hfatal Hblocked].
  split.
  - intros Hf. destruct (Hfatal Hf) as [-> Hmu].
    assert (Hh : holds_lock (code t) = true) by (by rewrite Hc).
    pose proof (holders_ge _ _ Hin Hh) as Hge. cbn [holders] in Hge.
    rewrite Hmu in Hcnt. lia.
  - intros Hb. destruct (Hblocked Hb) as [-> Hmu]. split; [done|].
    rewrite Hmu in Hcnt.
    destruct (holders_pos (fin :: taggers)) as (before & u & after & E & Hu);
      [cbn [holders]; lia|].
    exists u. split; [|done]. rewrite E. apply in_or_app. right. by left.
Qed.

Lemma steps_front (c1 c2 c3 : list Thread * State) :
  step c1 c2 -> steps c2 c3 -> steps c1 c3.
Proof.
  intros H12 H23. induction H23 as [c|x y z _ IH Hyz].
  - eapply steps_step; [apply steps_refl|done].
  - eapply steps_step; [by apply IH|done].
Qed.

(** X13. Every call returns: from any state [Finish] and the callers of
    [SetTag] can reach, the threads can be run on until all of them have
    returned. No thread is left waiting for the mutex for ever, whatever
    the interleaving so far. *)
Theorem race_completes (now : Z) (err : option GoError) (st0 : State)
    (tss : list (list (string * GoValue))) (ts : list Thread) (st : State) :
  span_ok st0 = true ->
  steps (spawn (Finish_body now err) :: callers tss, st0) (ts, st) ->
  exists ts' st', steps (ts, st) (ts', st') /\ finished ts'.
Proof.
  intros Hok.
  remember (remaining ts) as k eqn:Ek. revert ts st Ek.
  induction k as [k IH] using lt_wf_ind. intros ts st Ek Hreach.
  destruct (race_progress now err st0 tss ts st Hok Hreach)
    as [Hdone|[[ts1 st1] Hstep]].
  - exists ts, st. split; [apply steps_refl|done].
  - pose proof (step_remaining _ _ Hstep) as Hrem. cbn [fst] in Hrem.
    destruct (IH (remaining ts1) ltac:(lia) ts1 st1 eq_refl)
      as (ts' & st' & Hrun & Hdone).
    { by eapply steps_step. }
    exists ts', st'. split; [|done]. by eapply steps_front.
Qed.

(** What one action of a caller does to the tag sequence: the field it
    appends is the next one of its program. *)
Lemma tagger_step_tags (total : list Field) (e : nat)
    (before after : list Thread) (t : Thread)
    (a : action) (rest : list action) (l' : Local) (st st' : State) :
  taggers_inv total e (before ++ t :: after) st ->
  code t = a :: rest ->
  exec a (regs t) st = Ok (l', st') ->
  tags_of st' ++ stores rest = tags_of st ++ stores (code t).
Proof.
  intros (_ & Hsl & Hall & _) Hcode Hexec.
  apply Forall_app in Hall as [_ Hall].
  apply Forall_cons in Hall as [[Hshape Hloaded] _].
  rewrite Hcode in Hshape |- *.
  apply tagger_code_cons in Hshape as (_ & Hcase).
  destruct st as [s h o]. unfold tags_of. cbn [span heap out] in *.
  destruct Hcase as [(-> & _ & _ & Hst & _)
                    |[(-> & _ & _ & Hst)
                    |[(f & -> & _ & _ & Hst & _)
                    |(-> & _ & _ & Hst & _)]]];
    rewrite Hst; unfold exec in Hexec; cbn [span heap out] in Hexec.
  - destruct (mu s); [discriminate|]. by injection Hexec as <- <-.
  - by injection Hexec as <- <-.
  - rewrite (Hloaded f rest Hcode) in Hexec. cbn [span] in Hexec.
    destruct (append_slice growcap h (fields s) f) as [h' sl'] eqn:Eapp.
    injection Hexec as <- <-.
    destruct (append_slice_spec _ _ _ _ _ Hsl Eapp) as (Hc & _).
    unfold set_fields. cbn [span heap fields]. rewrite Hc.
    by rewrite <- app_assoc.
  - destruct (mu s); [|discriminate]. by injection Hexec as <- <-.
Qed.

(** X14. Callers of [SetTag] interleaved on one span: in every state they
    can reach, the tags the span had are still the head of its tag
    sequence, no record has been written, and each caller's tags so far
    appear in the sequence in the order that caller set them. When all
    have returned, every caller's whole list of tags appears, in its
    order. *)
Theorem callers_in_order (st0 : State) (tss : list (list (string * GoValue)))
    (ts : list Thread) (st : State) :
  span_ok st0 = true ->
  steps (callers tss, st0) (ts, st) ->
  (exists more, tags_of st = tags_of st0 ++ more) /\
  out st = out st0 /\
  Forall2 (fun tags t =>
             exists set, tag_fields tags = set ++ stores (code t) /\
                         set `sublist_of` tags_of st) tss ts /\
  (finished ts ->
   Forall (fun tags => tag_fields tags `sublist_of` tags_of st) tss).
Proof.
  intros Hok Hsteps.
  assert (Hinv : (exists more, tags_of st = tags_of st0 ++ more) /\
                 Forall2 (fun tags t =>
                   exists set, tag_fields tags = set ++ stores (code t) /\
                               set `sublist_of` tags_of st) tss ts).
  { remember (callers tss, st0) as c0 eqn:E0.
    remember (ts, st) as c eqn:E. revert ts st E.
    induction Hsteps as [c|c1 c2 c3 Hsteps IH Hstep]; intros ts st E.
    - assert (Heq : (callers tss, st0) = (ts, st)) by congruence.
      injection Heq as <- <-. split; [exists []; by rewrite app_nil_r|].
      unfold callers. apply Forall2_fmap_r, Forall_Forall2_diag.
      apply Forall_forall. intros tags _. exists [].
      cbn [spawn code app]. rewrite stores_SetTags_prog.
      split; [done|]. apply sublist_nil_l.
    - inversion Hstep as [before t after a rest l' st1 st2 Hc He E1 E2].
      assert (Heq : (ts, st) =
                (before ++ {| code := rest; regs := l' |} :: after, st2))
        by congruence.
      injection Heq as -> ->. subst c1 c2.
      destruct (IH eq_refl _ _ eq_refl) as ((more0 & Hmore0) & Hord).
      destruct (callers_invariant st0 tss _ _ Hok Hsteps) as (Htag & _).
      pose proof (tagger_step_tags _ _ _ _ _ _ _ _ _ _ Htag Hc He) as Htags.
      destruct (tagger_step _ _ _ _ _ _ _ _ _ _ Htag Hc He)
        as (_ & _ & _ & _ & _ & _ & (more & Hmore) & _).
      rewrite Hmore, <- app_assoc in Htags.
      apply app_inv_head in Htags.
      split; [exists (more0 ++ more); by rewrite Hmore, Hmore0, app_assoc|].
      apply Forall2_app_inv_r in Hord as (tss1 & tss2 & H1 & H2 & ->).
      apply Forall2_cons_inv_r in H2 as (tags & tss3 & Ht & H3 & ->).
      assert (Hweak : forall l1 l2, Forall2 (fun tags t =>
                 exists set, tag_fields tags = set ++ stores (code t) /\
                             set `sublist_of` tags_of st1) l1 l2 ->
               Forall2 (fun tags t =>
                 exists set, tag_fields tags = set ++ stores (code t) /\
                             set `sublist_of` tags_of st2) l1 l2).
      { intros l1 l2 H12. eapply Forall2_impl; [exact H12|].
        intros tags' u (set & Hset & Hsub). exists set. split; [done|].
        rewrite Hmore. by apply sublist_inserts_r. }
      apply Forall2_app; [by apply Hweak|].
      apply Forall2_cons; split; [|by apply Hweak].
      destruct Ht as (set & Hset & Hsub). exists (set ++ more).
      cbn [code]. split.
      + by rewrite <- app_assoc, Htags.
      + rewrite Hmore. apply sublist_app; [done|]. reflexivity. }
  destruct Hinv as [Hmore Hord].
  destruct (callers_invariant st0 tss ts st Hok Hsteps) as (_ & Ho & _).
  split; [done|]. split; [done|]. split; [done|].
  intros Hdone. clear Hmore Ho Hsteps.
  induction Hord as [|tags t tss' ts' (set & Hset & Hsub) _ IH]; [constructor|].
  apply Forall_cons in Hdone as [Ht Hts].
  constructor; [|by apply IH].
  rewrite Hset, Ht. cbn [stores]. by rewrite app_nil_r.
Qed.

End Jogger.

(** ** Context propagation *)

Lemma StartSpan_logger (env : Env) (ctx : Context) (name : string) :
  logger (fst (StartSpan env ctx name)) =
  With baseLogger
    ([FString "span" name; FString "spanID" (uuid_New env)]
     ++ match as_string (Value ctx RequestIDKey) with
        | Some rid => if decide (rid = "") then [] else [FString "requestID" rid]
        | None => []
        end).
Proof.
  unfold StartSpan, zap_String. cbn [fst logger]. f_equal.
  destruct (as_string (Value ctx RequestIDKey)) as [rid|];
    cbn [default from_option id].
  - destruct (decide (rid = "")); [|reflexivity]. by rewrite app_nil_r.
  - rewrite decide_True by reflexivity. by rewrite app_nil_r.
Qed.

Lemma FromContext_fields (ctx : Context) :
  FromContext ctx =
  With (default baseLogger (as_logger (Value ctx LoggerKey)))
    (match as_string (Value ctx RequestIDKey) with
     | Some rid => [FString "requestID" rid]
     | None => []
     end
     ++ match as_string (Value ctx SpanKey) with
        | Some sp => [FString "span" sp]
        | None => []
        end).
Proof.
  unfold FromContext.
  destruct (as_string (Value ctx RequestIDKey)) as [rid|];
    destruct (as_string (Value ctx SpanKey)) as [sp|];
    by destruct (as_logger (Value ctx LoggerKey)).
Qed.

(** C3 (as the code has it). With [requestID] bound to a string [rid],
    [FromContext] attaches a [requestID] field carrying [rid], the empty
    string included: the binding counts as present. [StartSpan] attaches
    the field only when [rid] is not empty; under an empty binding the
    span's logger carries [span] and [spanID] alone. *)
Theorem requestID_resolution (env : Env) (ctx : Context) (name rid : string) :
  Value ctx RequestIDKey = Some (CVal (GString rid)) ->
  In (FString "requestID" rid) (lcontext (FromContext ctx)) /\
  lcontext (logger (fst (StartSpan env ctx name))) =
    [FString "span" name; FString "spanID" (uuid_New env)]
    ++ (if decide (rid = "") then [] else [FString "requestID" rid]).
Proof.
  intros Hrid. split.
  - rewrite FromContext_fields, Hrid. cbn [as_string With lcontext].
    apply in_or_app. right. apply in_or_app. left. by left.
  - rewrite StartSpan_logger, Hrid. done.
Qed.

(** C4. Under a carrier that binds a logger override, [StartSpan] builds
    the span's logger from [baseLogger] and the explicit fields alone,
    whereas [FromContext] builds on the override. *)
Theorem logger_override (env : Env) (ctx : Context) (name : string) (l : Logger) :
  Value ctx LoggerKey = Some (CLogger l) ->
  (logger (fst (StartSpan env ctx name)) =
     With baseLogger
       ([FString "span" name; FString "spanID" (uuid_New env)]
        ++ match as_string (Value ctx RequestIDKey) with
           | Some rid =>
               if decide (rid = "") then [] else [FString "requestID" rid]
           | None => []
           end) /\
   lcore (logger (fst (StartSpan env ctx name))) = lcore baseLogger) /\
  (FromContext ctx =
     With l
       (match as_string (Value ctx RequestIDKey) with
        | Some rid => [FString "requestID" rid]
        | None => []
        end
        ++ match as_string (Value ctx SpanKey) with
           | Some sp => [FString "span" sp]
           | None => []
           end) /\
   lcore (FromContext ctx) = lcore l).
Proof.
  intros Hl. split.
  - by rewrite StartSpan_logger.
  - rewrite FromContext_fields, Hl. done.
Qed.

(** C5. Looking up [requestID] on [WithRequestID c id] yields [id]. The
    derived carrier is a new node on top of [c]: carriers are immutable
    values, [c] is its parent as it was, and a lookup on [c] depends on [c]
    alone. *)
Theorem WithRequestID_lookup (c : Context) (id : string) :
  Value (WithRequestID c id) RequestIDKey = Some (CVal (GString id)) /\
  parent_of (WithRequestID c id) = Some c /\
  (forall k, (parent_of (WithRequestID c id) ≫= fun p => Value p k) = Value c k).
Proof.
  unfold WithRequestID. cbn [Value parent_of]. by rewrite decide_True.
Qed.

(** C6. Deriving a carrier removes no binding: a key other than the one
    bound reads the same on the derived carrier as on the original, for
    [WithRequestID], for the carrier [StartSpan] returns, and for any
    [WithValue]; and whatever was bound stays bound. *)
Theorem derive_frame (c : Context) (k1 : Key) :
  (forall id, k1 <> RequestIDKey ->
     Value (WithRequestID c id) k1 = Value c k1) /\
  (forall env name, k1 <> SpanKey ->
     Value (snd (StartSpan env c name)) k1 = Value c k1) /\
  (forall k2 v, k1 <> k2 -> Value (WithValue c k2 v) k1 = Value c k1) /\
  (forall k2 v, is_Some (Value c k1) -> is_Some (Value (WithValue c k2 v) k1)).
Proof.
  assert (H : forall k2 v, k1 <> k2 -> Value (WithValue c k2 v) k1 = Value c k1).
  { intros k2 v Hne. cbn [Value]. by rewrite decide_False. }
  split; [intros id; apply H|]. split; [intros env name; apply H|].
  split; [done|]. intros k2 v Hs. cbn [Value]. by destruct (decide (k2 = k1)).
Qed.

(** The carrier [StartSpan] returns binds [currentSpan] to the identifier
    generated for the span, the one in the [spanID] field of the span's
    logger, on top of the carrier it was given. *)
Lemma StartSpan_carrier (env : Env) (ctx : Context) (name : string) :
  Value (snd (StartSpan env ctx name)) SpanKey
    = Some (CVal (GString (uuid_New env))) /\
  In (FString "spanID" (uuid_New env))
     (lcontext (logger (fst (StartSpan env ctx name)))) /\
  parent_of (snd (StartSpan env ctx name)) = Some ctx.
Proof.
  split; [|split].
  - unfold StartSpan. cbn [snd Value]. by rewrite decide_True.
  - rewrite StartSpan_logger. cbn [With lcontext baseLogger app]. right. by left.
  - done.
Qed.

(** Carriers built from [Background] by [WithRequestID], by bindings under
    keys other than [currentSpan], by cancellation nodes, and by binding
    [currentSpan] to a text the generator never gives or to a value that
    is no string, are such chains; and identifiers stay issued as more are
    drawn. *)
Lemma spans_issued_derive (gen : nat -> string) (n : nat) (ctx : Context) :
  spans_issued gen n Background /\
  (spans_issued gen n ctx ->
   (forall k v, k <> SpanKey -> spans_issued gen n (WithValue ctx k v)) /\
   (forall id, spans_issued gen n (WithRequestID ctx id)) /\
   spans_issued gen n (WithCancel ctx) /\
   (forall id, (forall j, id <> gen j) ->
      spans_issued gen n (WithValue ctx SpanKey (CVal (GString id)))) /\
   (forall v, as_string (Some v) = None ->
      spans_issued gen n (WithValue ctx SpanKey v)) /\
   (forall n', (n <= n')%nat -> spans_issued gen n' ctx)).
Proof.
  unfold spans_issued. split.
  - constructor; [|constructor]. intros id0. discriminate.
  - intros H.
    assert (Hk : forall k v, k <> SpanKey ->
              Forall (fun a => forall id, as_string (Value a SpanKey) = Some id ->
                                (exists i, (i < n)%nat /\ id = gen i) \/
                                (forall j, id <> gen j))
                     (WithValue ctx k v :: ancestors (WithValue ctx k v))).
    { intros k v Hne. cbn [ancestors]. constructor; [|done].
      cbn [Value]. rewrite decide_False by done.
      by apply Forall_cons in H as [H _]. }
    split; [done|]. split; [intros id; by apply Hk|]. split; [|split; [|split]].
    + cbn [ancestors]. constructor; [|done]. cbn [Value].
      by apply Forall_cons in H as [H _].
    + intros id0 Hid. cbn [ancestors]. constructor; [|done].
      cbn [Value]. rewrite decide_True by done.
      intros id' [= <-]. by right.
    + intros v Hv. cbn [ancestors]. constructor; [|done].
      cbn [Value]. rewrite decide_True by done. intros id'. by rewrite Hv.
    + intros n' Hle. eapply Forall_impl; [exact H|].
      intros a Ha id Hid. destruct (Ha id Hid) as [(i & Hi & ->)|Hnever].
      * left. exists i. split; [lia|done].
      * by right.
Qed.

(** C7. [StartSpan] returns a derived carrier whose [currentSpan] lookup
    yields the identifier just generated for the span (the one in the
    [spanID] field of the span's logger), and that identifier is distinct
    from every [currentSpan] bound along the ancestor chain. The generator
    never gives the same identifier twice, and what is bound along the
    chain was drawn from it earlier or is a text it never gives; the
    carrier returned is again such a chain, one draw later. *)
Theorem StartSpan_fresh_spanID (gen : nat -> string) (n m : nat) (now : Z)
    (ctx : Context) (name : string) :
  (forall i j, gen i = gen j -> i = j) ->
  spans_issued gen n ctx ->
  (n <= m)%nat ->
  let env := {| uuid_New := gen m; time_Now := now |} in
  let ctx' := snd (StartSpan env ctx name) in
  Value ctx' SpanKey = Some (CVal (GString (gen m))) /\
  In (FString "spanID" (gen m))
     (lcontext (logger (fst (StartSpan env ctx name)))) /\
  distinct_from_ancestors (gen m) ctx' /\
  spans_issued gen (S m) ctx'.
Proof.
  intros Hunique Hissued Hle. cbn zeta.
  destruct (StartSpan_carrier {| uuid_New := gen m; time_Now := now |} ctx name)
    as (Hlookup & Hfield & _).
  cbn [uuid_New] in Hlookup, Hfield.
  split; [done|]. split; [done|].
  unfold distinct_from_ancestors, spans_issued in *.
  cbn [StartSpan snd ancestors uuid_New].
  split.
  - eapply Forall_impl; [exact Hissued|].
    intros a Ha Hid. destruct (Ha _ Hid) as [(i & Hi & Heq)|Hnever].
    + apply Hunique in Heq. lia.
    + by apply (Hnever m).
  - constructor.
    + intros id Hid. cbn [Value] in Hid. rewrite decide_True in Hid by done.
      injection Hid as <-. left. exists m. split; [lia|done].
    + eapply Forall_impl; [exact Hissued|].
      intros a Ha id Hid. destruct (Ha id Hid) as [(i & Hi & ->)|Hnever].
      * left. exists i. split; [lia|done].
      * by right.
Qed.

(** ** The statements at work on the running example *)

(** A span as [StartSpan] returns it can be tagged and finished, in any
    store. *)
Lemma StartSpan_ok (env : Env) (ctx : Context) (name : string)
    (h : Heap) (o : list Entry) :
  span_ok {| span := fst (StartSpan env ctx name); heap := h; out := o |} = true.
Proof. reflexivity. Qed.

Lemma Finish_classification_witness :
  span_ok example_state = true /\
  exists st' e,
    Finish example_growcap 1200000100 (Some None) example_state = Ok st' /\
    out st' = out example_state ++ [e] /\
    entry_level e = WarnLevel.
Proof.
  split; [reflexivity|].
  destruct (Finish_classification example_growcap 1200000100 (Some None)
              example_state eq_refl)
    as (st' & e & Hfin & Hout & _ & Hslow & _).
  exists st', e. split; [exact Hfin|]. split; [exact Hout|].
  apply Hslow; [by right|reflexivity].
Defined.

Lemma Finish_emits_one_record_witness :
  span_ok example_state = true /\
  exists st' e,
    Finish example_growcap 150 (Some (Some "boom")) example_state = Ok st' /\
    out st' = [e] /\
    entry_fields e = [FDuration "duration" 50; FError "error" "boom"].
Proof.
  split; [reflexivity|].
  destruct (Finish_emits_one_record example_growcap 150 (Some (Some "boom"))
              example_state eq_refl)
    as (st' & e & Hfin & Hout & _ & Hfields).
  exists st', e. split; [exact Hfin|]. split; [exact Hout|]. exact Hfields.
Defined.

Lemma double_Finish_witness :
  span_ok example_state = true /\
  exists st3 e1 e2,
    out st3 = [e1; e2] /\
    entry_fields e1 = [FDuration "duration" 50] /\
    entry_fields e2 = [FString "k" "v"; FDuration "duration" 70].
Proof.
  split; [reflexivity|].
  destruct (double_Finish example_growcap 150 170 None None
              [("k", GString "v")] example_state eq_refl)
    as (st1 & st2 & st3 & e1 & e2 & _ & _ & _ & Hout & H1 & H2).
  exists st3, e1, e2. split; [exact Hout|]. split; [exact H1|exact H2].
Defined.

Lemma Finish_frame_witness :
  span_ok example_state = true /\
  exists st',
    Finish example_growcap 150 None example_state = Ok st' /\
    span st' = span example_state.
Proof.
  split; [reflexivity|].
  destruct (Finish_frame example_growcap 150 None example_state eq_refl)
    as (st' & Hfin & Hspan & _).
  exists st'. split; [exact Hfin|exact Hspan].
Defined.

Lemma concurrent_SetTag_witness :
  span_ok example_state = true /\
  (exists ts st,
     schedule example_growcap example_race_order
       (spawn (Finish_body 150 None) :: callers example_tags, example_state)
       = Some (ts, st) /\
     finished ts /\
     tags_of st = [FString "k" "v"; FBool "ok" true; FInt "n" 3] /\
     exists e snap later,
       out st = [e] /\
       entry_fields e = snap ++ [FDuration "duration" 50] /\
       tags_of st = snap ++ later /\
       Permutation (tags_of st) (all_tags example_state example_tags)) /\
  (exists ts st,
     schedule example_growcap example_order
       (callers example_tags, example_state) = Some (ts, st) /\
     finished ts /\
     tags_of st = [FString "k" "v"; FBool "ok" true; FInt "n" 3] /\
     Permutation (tags_of st) (all_tags example_state example_tags) /\
     exists st' e,
       Finish example_growcap 150 None st = Ok st' /\
       out st' = [e] /\
       length (entry_fields e) = 4%nat).
Proof.
  split; [reflexivity|].
  destruct (concurrent_SetTag example_growcap 150 None example_state
              example_tags eq_refl) as [Hrace Hafter].
  split.
  - destruct (schedule example_growcap example_race_order
                (spawn (Finish_body 150 None) :: callers example_tags,
                 example_state)) as [[ts st]|] eqn:Erun;
      [|vm_compute in Erun; discriminate].
    exists ts, st. split; [reflexivity|].
    assert (Hdone : finished ts).
    { vm_compute in Erun. injection Erun as <- _. repeat constructor. }
    split; [exact Hdone|].
    split; [vm_compute in Erun; by injection Erun as _ <-|].
    destruct (Hrace ts st (schedule_steps _ _ _ _ Erun))
      as (_ & _ & _ & Hrecord).
    exact (Hrecord Hdone).
  - destruct (schedule example_growcap example_order
                (callers example_tags, example_state)) as [[ts st]|] eqn:Erun;
      [|vm_compute in Erun; discriminate].
    exists ts, st. split; [reflexivity|].
    assert (Hdone : finished ts).
    { vm_compute in Erun. injection Erun as <- _. repeat constructor. }
    split; [exact Hdone|].
    split; [vm_compute in Erun; by injection Erun as _ <-|].
    destruct (Hafter ts st (schedule_steps _ _ _ _ Erun) Hdone)
      as (Hperm & st' & e & Hfin & Hout & _ & Hlen).
    split; [exact Hperm|].
    exists st', e. split; [exact Hfin|]. split; [exact Hout|exact Hlen].
Defined.

(** C3, the claim as stated, fails for [StartSpan]: under an empty-string
    binding [FromContext] attaches the field and [StartSpan] does not. *)
Lemma requestID_empty_counterexample :
  let ctx := WithRequestID Background "" in
  Value ctx RequestIDKey = Some (CVal (GString "")) /\
  In (FString "requestID" "") (lcontext (FromContext ctx)) /\
  has_key "requestID"
    (lcontext (logger (fst (StartSpan example_env ctx "op")))) = false.
Proof. split; [reflexivity|]. split; [by left|reflexivity]. Qed.

Lemma requestID_resolution_witness :
  let ctx := WithRequestID Background "" in
  Value ctx RequestIDKey = Some (CVal (GString "")) /\
  In (FString "requestID" "") (lcontext (FromContext ctx)) /\
  lcontext (logger (fst (StartSpan example_env ctx "op"))) =
    [FString "span" "op"; FString "spanID" (uuid_New example_env)].
Proof.
  split; [reflexivity|].
  exact (requestID_resolution example_env (WithRequestID Background "")
           "op" "" eq_refl).
Defined.

Lemma logger_override_witness :
  Value example_ctx_override LoggerKey = Some (CLogger example_override) /\
  lcore (logger (fst (StartSpan example_env example_ctx_override "op")))
    = lcore baseLogger /\
  lcore (FromContext example_ctx_override) = lcore example_override.
Proof.
  split; [reflexivity|].
  destruct (logger_override example_env example_ctx_override "op"
              example_override eq_refl) as [[_ Hspan] [_ Hctx]].
  split; [exact Hspan|exact Hctx].
Defined.

Lemma derive_frame_witness :
  LoggerKey <> RequestIDKey /\ LoggerKey <> SpanKey /\
  Value (WithRequestID example_ctx_override "r2") LoggerKey
    = Value example_ctx_override LoggerKey /\
  Value (snd (StartSpan example_env example_ctx_override "op")) LoggerKey
    = Value example_ctx_override LoggerKey /\
  is_Some (Value (WithValue example_ctx_override LoggerKey (CVal GNil)) LoggerKey).
Proof.
  assert (H1 : LoggerKey <> RequestIDKey) by discriminate.
  assert (H2 : LoggerKey <> SpanKey) by discriminate.
  destruct (derive_frame example_ctx_override LoggerKey)
    as (Hrid & Hspan & _ & Hkeep).
  split; [exact H1|]. split; [exact H2|].
  split; [exact (Hrid "r2" H1)|].
  split; [exact (Hspan example_env "op" H2)|].
  apply Hkeep. by eexists.
Defined.

Lemma StartSpan_fresh_spanID_witness :
  (forall i j, example_uuids i = example_uuids j -> i = j) /\
  spans_issued example_uuids 1 example_ctx_span /\
  Value example_ctx_span SpanKey = Some (CVal (GString (example_uuids 0))) /\
  let inner :=
    snd (StartSpan {| uuid_New := example_uuids 1; time_Now := 200 |}
           example_ctx_span "inner") in
  Value inner SpanKey = Some (CVal (GString (example_uuids 1))) /\
  distinct_from_ancestors (example_uuids 1) inner.
Proof.
  assert (Hunique : forall i j, example_uuids i = example_uuids j -> i = j).
  { intros i j H. by apply (inj pretty) in H. }
  assert (Hissued : spans_issued example_uuids 1 example_ctx_span).
  { unfold spans_issued, example_ctx_span, example_ctx.
    cbn [StartSpan snd ancestors WithRequestID uuid_New].
    constructor; [|constructor; [|constructor; [|constructor]]];
      intros id; cbn [Value].
    - destruct (decide (SpanKey = SpanKey)); [|done].
      intros [= <-]. left. exists 0%nat. split; [lia|done].
    - destruct (decide (RequestIDKey = SpanKey)); discriminate.
    - discriminate. }
  split; [exact Hunique|]. split; [exact Hissued|].
  split; [reflexivity|].
  destruct (StartSpan_fresh_spanID example_uuids 1 1 200 example_ctx_span
              "inner" Hunique Hissued (le_n 1)) as (Hlookup & _ & Hdistinct & _).
  split; [exact Hlookup|exact Hdistinct].
Defined.

(** ** Further properties of logger resolution and the facade *)

Lemma as_string_Some (v : option CtxValue) (s : string) :
  as_string v = Some s <-> v = Some (CVal (GString s)).
Proof.
  split; [|by intros ->].
  destruct v as [[l|[]]|]; cbn [as_string]; try discriminate.
  by intros [= ->].
Qed.

Lemma as_logger_Some (v : option CtxValue) (l : Logger) :
  as_logger v = Some l <-> v = Some (CLogger l).
Proof.
  split; [|by intros ->].
  destruct v as [[l'|g]|]; cbn [as_logger]; try discriminate.
  by intros [= ->].
Qed.

(** X1. [FromContext] adds at most two fields to the logger it starts
    from, [requestID] before [span]: a [requestID] field carrying [rid]
    exactly when the carrier resolves [requestID] to the string [rid], a
    [span] field carrying [sp] exactly when it resolves [currentSpan] to
    the string [sp]. A missing key, or a key bound to a value of another
    type, adds nothing; when both are there the fields are the two, in
    that order. *)
Theorem FromContext_attaches (ctx : Context) :
  exists fs,
    FromContext ctx
      = With (default baseLogger (as_logger (Value ctx LoggerKey))) fs /\
    (forall rid, In (FString "requestID" rid) fs <->
       Value ctx RequestIDKey = Some (CVal (GString rid))) /\
    (forall sp, In (FString "span" sp) fs <->
       Value ctx SpanKey = Some (CVal (GString sp))) /\
    (has_key "requestID" fs = true <->
       exists rid, Value ctx RequestIDKey = Some (CVal (GString rid))) /\
    (has_key "span" fs = true <->
       exists sp, Value ctx SpanKey = Some (CVal (GString sp))) /\
    (length fs <= 2)%nat /\
    (forall f, In f fs ->
       exists v, f = FString "requestID" v \/ f = FString "span" v) /\
    (forall rid sp, In (FString "requestID" rid) fs ->
       In (FString "span" sp) fs ->
       fs = [FString "requestID" rid; FString "span" sp]).
Proof.
  eexists. split; [apply FromContext_fields|].
  pose proof (as_string_Some (Value ctx RequestIDKey)) as HR.
  pose proof (as_string_Some (Value ctx SpanKey)) as HS.
  destruct (as_string (Value ctx RequestIDKey)) as [rid|];
    destruct (as_string (Value ctx SpanKey)) as [sp|];
    cbn [app has_key existsb field_key length In]; split_and!.
  all: try lia.
  all: try (intros x; rewrite <- ?HR, <- ?HS; split;
            [intros [E|[E|[]]] || intros [E|[]] || intros [];
             congruence
            |intros [= ->]; auto]).
  all: try (split; [done|intros [x Hx]; apply HR in Hx || apply HS in Hx;
                     discriminate]).
  all: try (split; [intros _; eexists; by (apply HR || apply HS)|done]).
  all: try (intros f Hf; intuition (subst; eauto); fail).
  all: intros x y Hx Hy; intuition congruence.
Qed.

(** X2. Only the three keys of the package matter to [FromContext]: a
    binding under any other key, a plain string with the same text as one
    of them included, and a node that binds nothing, leave the resolved
    logger as it was. *)
Theorem FromContext_frame (ctx : Context) (k : Key) (v : CtxValue) :
  k <> RequestIDKey -> k <> SpanKey -> k <> LoggerKey ->
  FromContext (WithValue ctx k v) = FromContext ctx /\
  FromContext (WithCancel ctx) = FromContext ctx.
Proof.
  intros H1 H2 H3. split; [|done].
  unfold FromContext. cbn [Value]. by rewrite !decide_False.
Qed.

(** X3. The logger of a span depends on the carrier through [requestID]
    alone: binding any other key before [StartSpan] changes nothing of the
    span. A span started inside another carries no reference to it: its
    logger is the one it would have had on the outer carrier. *)
Theorem StartSpan_reads_requestID_only (env : Env) (ctx : Context)
    (name : string) (k : Key) (v : CtxValue) :
  k <> RequestIDKey ->
  fst (StartSpan env (WithValue ctx k v) name) = fst (StartSpan env ctx name) /\
  (forall outer outer_name,
     fst (StartSpan env (snd (StartSpan outer ctx outer_name)) name)
       = fst (StartSpan env ctx name)).
Proof.
  intros Hk.
  assert (H : forall k' v', k' <> RequestIDKey ->
            fst (StartSpan env (WithValue ctx k' v') name)
              = fst (StartSpan env ctx name)).
  { intros k' v' Hne. unfold StartSpan. cbn [fst Value].
    by destruct (decide (k' = RequestIDKey)). }
  split; [by apply H|]. intros outer outer_name. by apply H.
Qed.

(** X4. The span's logger has a [requestID] field exactly when the carrier
    resolves [requestID] to a non-empty string; a missing key, a value of
    another type and the empty string all give a logger with [span] and
    [spanID] alone. *)
Theorem StartSpan_requestID_iff (env : Env) (ctx : Context) (name : string) :
  let fs := lcontext (logger (fst (StartSpan env ctx name))) in
  (has_key "requestID" fs = true <->
     exists rid, rid <> "" /\
       Value ctx RequestIDKey = Some (CVal (GString rid))) /\
  (has_key "requestID" fs = false ->
     fs = [FString "span" name; FString "spanID" (uuid_New env)]).
Proof.
  cbn zeta. rewrite StartSpan_logger. cbn [With lcontext baseLogger app].
  destruct (as_string (Value ctx RequestIDKey)) as [rid|] eqn:Er.
  - apply as_string_Some in Er.
    destruct (decide (rid = "")) as [->|Hne];
      cbn [has_key existsb field_key app].
    + split; [|done]. split; [discriminate|].
      intros (rid & Hne & Hrid). congruence.
    + split; [|discriminate]. split; [|done]. intros _. by exists rid.
  - cbn [has_key existsb field_key app]. split; [|done].
    split; [discriminate|]. intros (rid & _ & Hrid).
    apply as_string_Some in Hrid. congruence.
Qed.

(** X5. On the carrier [StartSpan] returns, [FromContext] resolves the
    same base logger and [requestID] as on the carrier given, and attaches
    under the key [span] the identifier of the span (not its name). *)
Theorem FromContext_after_StartSpan (env : Env) (ctx : Context) (name : string) :
  FromContext (snd (StartSpan env ctx name)) =
  With (default baseLogger (as_logger (Value ctx LoggerKey)))
    (match as_string (Value ctx RequestIDKey) with
     | Some rid => [FString "requestID" rid]
     | None => []
     end ++ [FString "span" (uuid_New env)]).
Proof.
  rewrite FromContext_fields. unfold StartSpan. cbn [snd Value].
  destruct (decide (SpanKey = RequestIDKey)); [discriminate|].
  destruct (decide (SpanKey = LoggerKey)); [discriminate|].
  destruct (decide (SpanKey = SpanKey)); [|done].
  cbn [as_string]. by destruct (as_string (Value ctx RequestIDKey)).
Qed.

(** X6. Without a logger override on the carrier, each of [Info], [Warn]
    and [Error] writes exactly one record, at its own level, through the
    process-wide core, with the message and exactly the caller's fields. *)
Theorem facade_default (ctx : Context) (msg : string) (fs : list Field) :
  as_logger (Value ctx LoggerKey) = None ->
  let entry lvl :=
    {| entry_logger := FromContext ctx; entry_level := lvl;
       entry_msg := msg; entry_fields := fs |} in
  Info ctx msg fs = [entry InfoLevel] /\
  Warn ctx msg fs = [entry WarnLevel] /\
  Error ctx msg fs = [entry ErrorLevel] /\
  lcore (FromContext ctx) = lcore baseLogger.
Proof.
  intros Hl. cbn zeta.
  assert (Hcore : lcore (FromContext ctx) = lcore baseLogger)
    by (by rewrite FromContext_fields, Hl).
  unfold Info, Warn, Error, log. rewrite Hcore. done.
Qed.

(** X7. With a logger override bound, what the facade writes goes through
    the override: each call writes at most one record, and a record
    written is at the call's own level, with the caller's message and
    fields, on the override's core, and carries the override's own fields
    before the resolved ones. Whether the record is written is the
    business of the override's core. *)
Theorem facade_override (ctx : Context) (l : Logger) (msg : string)
    (fs : list Field) :
  Value ctx LoggerKey = Some (CLogger l) ->
  exists added,
    FromContext ctx = With l added /\
    lcore (FromContext ctx) = lcore l /\
    lcontext (FromContext ctx) = lcontext l ++ added /\
    let entry lvl :=
      {| entry_logger := FromContext ctx; entry_level := lvl;
         entry_msg := msg; entry_fields := fs |} in
    (Info ctx msg fs = [] \/ Info ctx msg fs = [entry InfoLevel]) /\
    (Warn ctx msg fs = [] \/ Warn ctx msg fs = [entry WarnLevel]) /\
    (Error ctx msg fs = [] \/ Error ctx msg fs = [entry ErrorLevel]).
Proof.
  intros Hl. eexists. split; [by rewrite FromContext_fields, Hl|].
  rewrite FromContext_fields, Hl. cbn [as_logger default from_option id].
  split; [done|]. split; [done|]. cbn zeta.
  unfold Info, Warn, Error, log.
  rewrite FromContext_fields, Hl. cbn [as_logger default from_option id].
  split_and!;
    match goal with
    | |- context [Enabled ?c ?lvl] => destruct (Enabled c lvl); auto
    end.
Qed.

(** X15. The nearest binding wins: binding a key again hides the earlier
    binding entirely. Every lookup on the carrier, the logger [FromContext]
    resolves and the span [StartSpan] builds are what they would be had
    the earlier binding never been made. *)
Theorem rebinding_shadows (ctx : Context) (k : Key) (v1 v2 : CtxValue) :
  let twice := WithValue (WithValue ctx k v1) k v2 in
  let once := WithValue ctx k v2 in
  (forall key, Value twice key = Value once key) /\
  FromContext twice = FromContext once /\
  (forall env name,
     fst (StartSpan env twice name) = fst (StartSpan env once name)).
Proof.
  cbn zeta.
  assert (H : forall key,
            Value (WithValue (WithValue ctx k v1) k v2) key
              = Value (WithValue ctx k v2) key).
  { intros key. cbn [Value]. by destruct (decide (k = key)). }
  split; [done|]. split.
  - unfold FromContext. by rewrite !H.
  - intros env name. unfold StartSpan. cbn [fst]. by rewrite H.
Qed.

(** ** The further properties on the running example *)

Lemma FromContext_frame_witness :
  StringKey "requestID" <> RequestIDKey /\
  FromContext (WithValue example_ctx (StringKey "requestID")
                 (CVal (GString "other")))
    = FromContext example_ctx.
Proof.
  split; [discriminate|].
  apply (FromContext_frame example_ctx (StringKey "requestID")
           (CVal (GString "other"))); discriminate.
Defined.

Lemma StartSpan_reads_requestID_only_witness :
  LoggerKey <> RequestIDKey /\
  fst (StartSpan example_env example_ctx_override "op")
    = fst (StartSpan example_env example_ctx "op").
Proof.
  assert (H : LoggerKey <> RequestIDKey) by discriminate.
  split; [exact H|].
  exact (proj1 (StartSpan_reads_requestID_only example_env example_ctx "op"
                  LoggerKey (CLogger example_override) H)).
Defined.

Lemma facade_default_witness :
  as_logger (Value example_ctx LoggerKey) = None /\
  Warn example_ctx "slow response" [] =
    [ {| entry_logger := With baseLogger [FString "requestID" "r1"];
         entry_level := WarnLevel;
         entry_msg := "slow response";
         entry_fields := [] |} ].
Proof.
  split; [reflexivity|].
  destruct (facade_default example_ctx "slow response" [] eq_refl)
    as (_ & Hwarn & _).
  exact Hwarn.
Defined.

Lemma facade_override_witness :
  Value example_ctx_override LoggerKey = Some (CLogger example_override) /\
  lcore (FromContext example_ctx_override) = lcore example_override /\
  lcontext (FromContext example_ctx_override)
    = [FString "service" "api"; FString "requestID" "r1"].
Proof.
  split; [reflexivity|].
  destruct (facade_override example_ctx_override example_override "msg" []
              eq_refl) as (added & _ & Hcore & _).
  split; [exact Hcore|reflexivity].
Defined.

Lemma SetTags_append_in_order_witness :
  span_ok example_state = true /\
  exists st',
    SetTags example_growcap [("k", GString "a"); ("k", GString "b")]
      example_state = Ok st' /\
    tags_of st' = [FString "k" "a"; FString "k" "b"].
Proof.
  split; [reflexivity|].
  destruct (SetTags_append_in_order example_growcap
              [("k", GString "a"); ("k", GString "b")] example_state eq_refl)
    as (st' & Hrun & Htags & _).
  exists st'. split; [exact Hrun|exact Htags].
Defined.

Lemma Finish_level_by_clock_witness :
  span_ok example_state = true /\
  exists st' e,
    Finish example_growcap 1000000100 None example_state = Ok st' /\
    out st' = [e] /\
    entry_level e = InfoLevel.
Proof.
  split; [reflexivity|].
  destruct (Finish_level_by_clock example_growcap 1000000100 example_state
              eq_refl) as (_ & st' & e & Hfin & Hout & _ & Hinfo).
  exists st', e. split; [exact Hfin|]. split; [exact Hout|].
  apply Hinfo. vm_compute. discriminate.
Defined.

Lemma race_progress_witness :
  span_ok example_state = true /\
  exists ts st,
    schedule example_growcap [1; 1; 1]%nat
      (spawn (Finish_body 150 None) :: callers example_tags, example_state)
      = Some (ts, st) /\
    (finished ts \/ exists c', step example_growcap (ts, st) c').
Proof.
  split; [reflexivity|].
  destruct (schedule example_growcap [1; 1; 1]%nat
              (spawn (Finish_body 150 None) :: callers example_tags,
               example_state)) as [[ts st]|] eqn:Erun;
    [|vm_compute in Erun; discriminate].
  exists ts, st. split; [reflexivity|].
  exact (race_progress example_growcap 150 None example_state example_tags
           ts st eq_refl (schedule_steps _ _ _ _ Erun)).
Defined.

Lemma race_never_fatal_witness :
  span_ok example_state = true /\
  exists ts st,
    schedule example_growcap [1; 1; 1]%nat
      (spawn (Finish_body 150 None) :: callers example_tags, example_state)
      = Some (ts, st) /\
    In (spawn (Finish_body 150 None)) ts /\
    exec example_growcap ALock local0 st <> Fatal.
Proof.
  split; [reflexivity|].
  destruct (schedule example_growcap [1; 1; 1]%nat
              (spawn (Finish_body 150 None) :: callers example_tags,
               example_state)) as [[ts st]|] eqn:Erun;
    [|vm_compute in Erun; discriminate].
  exists ts, st. split; [reflexivity|].
  assert (Hin : In (spawn (Finish_body 150 None)) ts).
  { vm_compute in Erun. injection Erun as <- _. by left. }
  split; [exact Hin|].
  exact (proj1 (race_never_fatal example_growcap 150 None example_state
                  example_tags ts st eq_refl (schedule_steps _ _ _ _ Erun)
                  (spawn (Finish_body 150 None)) ALock _ Hin eq_refl)).
Defined.

Lemma race_completes_witness :
  span_ok example_state = true /\
  exists ts st,
    schedule example_growcap [1; 1; 1]%nat
      (spawn (Finish_body 150 None) :: callers example_tags, example_state)
      = Some (ts, st) /\
    exists ts' st', steps example_growcap (ts, st) (ts', st') /\ finished ts'.
Proof.
  split; [reflexivity|].
  destruct (schedule example_growcap [1; 1; 1]%nat
              (spawn (Finish_body 150 None) :: callers example_tags,
               example_state)) as [[ts st]|] eqn:Erun;
    [|vm_compute in Erun; discriminate].
  exists ts, st. split; [reflexivity|].
  exact (race_completes example_growcap 150 None example_state example_tags
           ts st eq_refl (schedule_steps _ _ _ _ Erun)).
Defined.

Lemma callers_in_order_witness :
  span_ok example_state = true /\
  exists ts st,
    schedule example_growcap example_order
      (callers example_tags, example_state) = Some (ts, st) /\
    finished ts /\
    Forall (fun tags => tag_fields tags `sublist_of` tags_of st) example_tags.
Proof.
  split; [reflexivity|].
  destruct (schedule example_growcap example_order
              (callers example_tags, example_state)) as [[ts st]|] eqn:Erun;
    [|vm_compute in Erun; discriminate].
  exists ts, st. split; [reflexivity|].
  assert (Hdone : finished ts).
  { vm_compute in Erun. injection Erun as <- _. repeat constructor. }
  split; [exact Hdone|].
  destruct (callers_in_order example_growcap example_state example_tags ts st
              eq_refl (schedule_steps _ _ _ _ Erun)) as (_ & _ & _ & Hall).
  exact (Hall Hdone).
Defined.
